(** * peeps-log: the contact agenda (Index page, ContactDialog, ContactCard)

    A shallow embedding of the TypeScript sources

      - src/pages/Index.tsx            (state, handlers, search filter, header)
      - src/components/ContactDialog   (field seeding, handleSubmit)
      - the migration that adds the [city] column

    JavaScript strings are sequences of UTF-16 code units, objects are finite
    maps from property names to values, the React state of a component is a
    record, and an [async] handler is a small program tree whose nodes are the
    state setters, the notifications and the awaited store requests. *)

From Stdlib Require Import NArith List Ascii String Bool Permutation.
From stdpp Require Import base option list strings gmap fin_maps.

Import ListNotations.
Open Scope string_scope.
Open Scope N_scope.
Open Scope list_scope.

(** ** JavaScript strings *)

Module Js.

Abbreviation jsstring := (list N).

(** Code units of an ASCII literal. *)
Definition u16 (s : string) : jsstring :=
  List.map N_of_ascii (list_ascii_of_string s).

(** [s.startsWith(t)] *)
Fixpoint startsWith (s t : jsstring) {struct t} : bool :=
  match t, s with
  | [], _ => true
  | _ :: _, [] => false
  | b :: t', a :: s' => (a =? b) && startsWith s' t'
  end.

(** [s.includes(t)]: some position of [s] starts an occurrence of [t]. *)
Fixpoint includes (s t : jsstring) : bool :=
  startsWith s t ||
  match s with
  | [] => false
  | _ :: s' => includes s' t
  end.

(** Truthiness of a string: only the empty string is falsy. *)
Definition truthy (s : jsstring) : bool :=
  match s with [] => false | _ :: _ => true end.

(** [o || d] for a possibly absent string [o] and a string [d]. *)
Definition or_else (o : option jsstring) (d : jsstring) : jsstring :=
  match o with
  | Some s => if truthy s then s else d
  | None => d
  end.

(** [s || undefined] *)
Definition or_undefined (s : jsstring) : option jsstring :=
  if truthy s then Some s else None.

(** [o1 || o2] where both sides may be absent. *)
Definition or_opt (o1 o2 : option jsstring) : option jsstring :=
  match o1 with
  | Some s => if truthy s then Some s else o2
  | None => o2
  end.

(** The default case conversion of one code unit, on Basic Latin and the
    Latin-1 Supplement (U+0041..U+005A and U+00C0..U+00DE without U+00D7). *)
Definition lower_unit (u : N) : N :=
  if (65 <=? u) && (u <=? 90) then u + 32
  else if (192 <=? u) && (u <=? 222) && negb (u =? 215) then u + 32
  else u.

(** [s.toLowerCase()] for strings whose cased letters are in those two
    blocks; the search filter below is stated over any conversion
    function and evaluated with this one. *)
Definition toLowerCase_latin1 (s : jsstring) : jsstring :=
  List.map lower_unit s.

(** Values of object properties as the handlers build them. *)
Inductive jsval : Type :=
| JUndefined
| JNull
| JString (s : jsstring).

Definition of_opt (o : option jsstring) : jsval :=
  match o with
  | Some s => JString s
  | None => JUndefined
  end.

#[global] Instance jsval_eq_dec : EqDecision jsval.
Proof. solve_decision. Defined.

(** [JSON.stringify] of an object: properties whose value is [undefined]
    are not written. *)
Definition json (o : gmap string jsval) : gmap string jsval :=
  filter (fun kv => kv.2 <> JUndefined) o.

End Js.

Import Js.

(** ** Records of the three [Contact] interfaces

    [Index.tsx], [ContactCard.tsx] and [ContactDialog.tsx] each declare a
    structural [Contact] interface; objects flow between the three, so the
    record carries the union of their properties.  [None] is an absent
    (undefined or null) property. *)

Record Contact : Type := mkContact {
  id : option jsstring;
  name : jsstring;
  email : option jsstring;
  phone : option jsstring;
  address : option jsstring;
  city : option jsstring;
  notes : option jsstring
}.

#[global] Instance Contact_eq_dec : EqDecision Contact.
Proof. solve_decision. Defined.

(** ** Search filter (Index.tsx, [filteredContacts]) *)

Section Search.

(** [String.prototype.toLowerCase] *)
Variable toLowerCase : jsstring -> jsstring.

(** The callback passed to [contacts.filter]; an optional chain on an
    absent property yields [undefined], which is falsy. *)
Definition matchesSearch (searchTerm : jsstring) (contact : Contact) : bool :=
  includes (toLowerCase (name contact)) (toLowerCase searchTerm)
  || match email contact with
     | Some e => includes (toLowerCase e) (toLowerCase searchTerm)
     | None => false
     end
  || match phone contact with
     | Some p => includes p searchTerm
     | None => false
     end.

Definition filteredContacts (contacts : list Contact) (searchTerm : jsstring)
  : list Contact :=
  List.filter (matchesSearch searchTerm) contacts.

End Search.

(** The words of the specification: [t] occurs in [s]. *)
Definition substring_of (t s : jsstring) : Prop :=
  exists pre post, s = pre ++ t ++ post.

(** [t] occurs in [s] once both are case-folded by [lower]. *)
Definition ci_substring_of (lower : jsstring -> jsstring) (t s : jsstring) : Prop :=
  substring_of (lower t) (lower s).

(** The contacts of the example in the specification. *)
Definition ana : Contact :=
  mkContact None (u16 "Ana L" ++ [243] ++ u16 "pez")
    (Some (u16 "a@x.com")) (Some (u16 "600111222")) None None None.

Definition beto : Contact :=
  mkContact None (u16 "Beto")
    (Some (u16 "b@x.com")) (Some (u16 "600333444")) None None None.

(** ** The hosted store

    The store is reached only through the client library; what follows is
    the part of its behaviour the handlers and the migration rely on.
    Row-level authorization and transport failures are outside the sources:
    a request the store refuses, for whatever reason, is a [Refuse] turn. *)

Module Store.

Inductive PgError : Type :=
| Refused
| NoSuchRelation (t : string)
| NoSuchColumn (c : string)
| NotNullViolation (c : string)
| DuplicateColumn (c : string)
| NotOneRow.

(** Modelled from the spec: the base [contacts] table, whose creating
    migration is not among the sources.  Section 3 gives it a
    server-assigned [id] and [created_at], an owner [user_id], a required
    [name], and the optional texts [email], [phone], [address], [notes].
    The required columns are fields; the nullable text columns are a map
    in which a column without entry is NULL. *)
Record Row : Type := mkRow {
  row_id : jsstring;
  row_user_id : jsstring;
  row_name : jsstring;
  row_created_at : jsstring;
  row_opt : gmap string jsstring
}.

(** A table: its nullable text columns, each with its DEFAULT (if any),
    and its rows. *)
Record Table : Type := mkTable {
  nullable : gmap string (option jsstring);
  rows : list Row
}.

(** Modelled from the spec: the [profiles] table, one row per user. *)
Record ProfileRow : Type := mkProfileRow {
  p_user_id : jsstring;
  p_full_name : option jsstring
}.

Record Db : Type := mkDb {
  contacts : Table;
  profiles : list ProfileRow
}.

Definition required_columns : list string :=
  ["id"; "user_id"; "name"; "created_at"].

Definition base_contacts : Table :=
  mkTable (list_to_map [("email", None); ("phone", None);
                        ("address", None); ("notes", None)]) [].

(** The value of column [c] in row [r]; [None] is NULL. *)
Definition cell (r : Row) (c : string) : option jsstring :=
  if decide (c = "id") then Some (row_id r)
  else if decide (c = "user_id") then Some (row_user_id r)
  else if decide (c = "name") then Some (row_name r)
  else if decide (c = "created_at") then Some (row_created_at r)
  else row_opt r !! c.

Definition set_opt (c : string) (v : option jsstring) (r : Row) : Row :=
  mkRow (row_id r) (row_user_id r) (row_name r) (row_created_at r)
    (match v with
     | Some s => <[c := s]> (row_opt r)
     | None => delete c (row_opt r)
     end).

(** *** The migration (unnamed/part_000) *)

(** [ALTER TABLE t ADD COLUMN c TEXT DEFAULT d]: the column gets the
    default for later inserts, and every existing row gets it as value. *)
Definition add_column (c : string) (d : option jsstring) (t : Table)
  : PgError + Table :=
  if decide (c ∈ required_columns) then inl (DuplicateColumn c)
  else match nullable t !! c with
       | Some _ => inl (DuplicateColumn c)
       | None =>
           inr (mkTable (<[c := d]> (nullable t))
                  (List.map (set_opt c d) (rows t)))
       end.

(** [UPDATE t SET c = v WHERE c IS NULL] *)
Definition update_where_null (c : string) (v : jsstring) (t : Table)
  : PgError + Table :=
  match nullable t !! c with
  | None => inl (NoSuchColumn c)
  | Some _ =>
      inr (mkTable (nullable t)
             (List.map (fun r => match row_opt r !! c with
                                 | None => set_opt c (Some v) r
                                 | Some _ => r
                                 end) (rows t)))
  end.

Definition Burgos : jsstring := u16 "Burgos".

Definition migration (t : Table) : PgError + Table :=
  match add_column "city" (Some Burgos) t with
  | inl e => inl e
  | inr t' => update_where_null "city" Burgos t'
  end.

(** *** Requests *)

Inductive Verb : Type :=
| VSelect (columns : string)
| VInsert (values : gmap string jsval)
| VUpdate (values : gmap string jsval)
| VDelete.

Record Query : Type := mkQuery {
  q_table : string;
  q_verb : Verb;
  q_eq : list (string * jsstring);
  q_order : option (string * bool);
  q_single : bool
}.

(** A NOT NULL text column written from a request body. *)
Definition required (body : gmap string jsval) (c : string)
    (otherwise : PgError + jsstring) : PgError + jsstring :=
  match body !! c with
  | None => otherwise
  | Some (JString s) => inr s
  | Some _ => inl (NotNullViolation c)
  end.

(** The first property of the body that is not a column. *)
Definition unknown_column (body : gmap string jsval) (t : Table)
  : option string :=
  List.find (fun c => bool_decide (c ∉ required_columns)
                      && bool_decide (nullable t !! c = None))
    (List.map fst (map_to_list body)).

(** The nullable columns of a new row: the body's value where it has
    one, the column's DEFAULT otherwise. *)
Definition inserted_opt (body : gmap string jsval) (t : Table)
  : gmap string jsstring :=
  map_imap (fun c d => match body !! c with
                       | Some (JString s) => Some s
                       | Some _ => None
                       | None => d
                       end) (nullable t).

(** The nullable columns of an updated row: the body's value where it
    has one, the old value otherwise. *)
Definition updated_opt (body : gmap string jsval) (t : Table) (r : Row)
  : gmap string jsstring :=
  map_imap (fun c (_ : option jsstring) =>
              match body !! c with
              | Some (JString s) => Some s
              | Some _ => None
              | None => row_opt r !! c
              end) (nullable t).

Definition insert_row (values : gmap string jsval) (new_id now : jsstring)
    (t : Table) : PgError + Table :=
  let body := json values in
  match unknown_column body t with
  | Some c => inl (NoSuchColumn c)
  | None =>
      match required body "id" (inr new_id),
            required body "user_id" (inl (NotNullViolation "user_id")),
            required body "name" (inl (NotNullViolation "name")),
            required body "created_at" (inr now) with
      | inr i, inr u, inr n, inr c =>
          inr (mkTable (nullable t)
                 (rows t ++ [mkRow i u n c (inserted_opt body t)]))
      | inl e, _, _, _ | _, inl e, _, _ | _, _, inl e, _ | _, _, _, inl e =>
          inl e
      end
  end.

Definition matches (filters : list (string * jsstring)) (r : Row) : bool :=
  forallb (fun f => bool_decide (cell r f.1 = Some f.2)) filters.

Definition update_row (body : gmap string jsval) (t : Table) (r : Row)
  : PgError + Row :=
  match required body "id" (inr (row_id r)),
        required body "user_id" (inr (row_user_id r)),
        required body "name" (inr (row_name r)),
        required body "created_at" (inr (row_created_at r)) with
  | inr i, inr u, inr n, inr c => inr (mkRow i u n c (updated_opt body t r))
  | inl e, _, _, _ | _, inl e, _, _ | _, _, inl e, _ | _, _, _, inl e =>
      inl e
  end.

Fixpoint update_all (body : gmap string jsval)
    (filters : list (string * jsstring)) (t : Table) (rs : list Row)
  : PgError + list Row :=
  match rs with
  | [] => inr []
  | r :: rs' =>
      match (if matches filters r then update_row body t r else inr r),
            update_all body filters t rs' with
      | inr r', inr rs'' => inr (r' :: rs'')
      | inl e, _ | _, inl e => inl e
      end
  end.

Definition update_rows (values : gmap string jsval)
    (filters : list (string * jsstring)) (t : Table) : PgError + Table :=
  let body := json values in
  match unknown_column body t with
  | Some c => inl (NoSuchColumn c)
  | None =>
      match update_all body filters t (rows t) with
      | inl e => inl e
      | inr rs => inr (mkTable (nullable t) rs)
      end
  end.

Definition delete_rows (filters : list (string * jsstring)) (t : Table)
  : Table :=
  mkTable (nullable t) (List.filter (fun r => negb (matches filters r)) (rows t)).

(** Order of text values, code unit by code unit. *)
Fixpoint text_leb (a b : jsstring) : bool :=
  match a, b with
  | [], _ => true
  | _ :: _, [] => false
  | x :: a', y :: b' =>
      if x <? y then true else if y <? x then false else text_leb a' b'
  end.

(** NULL sorts as larger than every value. *)
Definition key_leb (a b : option jsstring) : bool :=
  match a, b with
  | _, None => true
  | None, Some _ => false
  | Some x, Some y => text_leb x y
  end.

Definition row_leb (o : string * bool) (r1 r2 : Row) : bool :=
  if o.2 then key_leb (cell r1 o.1) (cell r2 o.1)
  else key_leb (cell r2 o.1) (cell r1 o.1).

Fixpoint place (o : string * bool) (r : Row) (sorted : list Row) : list Row :=
  match sorted with
  | [] => [r]
  | r' :: rest =>
      if row_leb o r' r then r' :: place o r rest else r :: sorted
  end.

Definition ordered (o : option (string * bool)) (rs : list Row) : list Row :=
  match o with
  | None => rs
  | Some o => List.fold_left (fun acc r => place o r acc) rs []
  end.

Definition selected (q : Query) (t : Table) : list Row :=
  ordered (q_order q) (List.filter (matches (q_eq q)) (rows t)).

End Store.

(** ** The client library

    The builder calls the handlers chain, the reply a request resolves to,
    and the execution of a request by the store. *)

Record Profile : Type := mkProfile {
  full_name : option jsstring
}.

Module Supabase.
Import Store.

Definition from (table : string) : string := table.

Definition select (columns : string) (table : string) : Query :=
  mkQuery table (VSelect columns) [] None false.

Definition insert (values : gmap string jsval) (table : string) : Query :=
  mkQuery table (VInsert values) [] None false.

Definition update (values : gmap string jsval) (table : string) : Query :=
  mkQuery table (VUpdate values) [] None false.

Definition delete (table : string) : Query :=
  mkQuery table VDelete [] None false.

Definition order (column : string) (ascending : bool) (q : Query) : Query :=
  mkQuery (q_table q) (q_verb q) (q_eq q) (Some (column, ascending)) (q_single q).

Definition single (q : Query) : Query :=
  mkQuery (q_table q) (q_verb q) (q_eq q) (q_order q) true.

Definition eq (column : string) (value : jsstring) (q : Query) : Query :=
  mkQuery (q_table q) (q_verb q) (q_eq q ++ [(column, value)])
    (q_order q) (q_single q).

End Supabase.

Notation "q '.>' f" := (f q) (at level 48, left associativity, only parsing).

(** What [data] holds in a reply. *)
Inductive Data : Type :=
| DNull
| DContacts (cs : list Contact)
| DContact (c : Contact)
| DProfiles (ps : list Profile)
| DProfile (p : Profile).

Record Reply : Type := mkReply {
  data : Data;
  error : option Store.PgError
}.

(** What the server does with the next request: refuse it, or serve it;
    serving an insert assigns the identifier and the creation time. *)
Inductive Turn : Type :=
| Refuse
| Serve (new_id now : jsstring).

Module Server.
Import Store.

Definition failed (e : PgError) : Reply := mkReply DNull (Some e).
Definition ok (d : Data) : Reply := mkReply d None.

Definition contact_of_row (r : Row) : Contact :=
  mkContact (Some (row_id r)) (row_name r)
    (row_opt r !! "email") (row_opt r !! "phone") (row_opt r !! "address")
    (row_opt r !! "city") (row_opt r !! "notes").

Definition profile_of_row (p : ProfileRow) : Profile :=
  mkProfile (p_full_name p).

Definition profile_matches (filters : list (string * jsstring))
    (p : ProfileRow) : bool :=
  forallb (fun f =>
             if decide (f.1 = "user_id") then bool_decide (p_user_id p = f.2)
             else if decide (f.1 = "full_name")
                  then bool_decide (p_full_name p = Some f.2)
                  else false) filters.

(** [.single()]: exactly one row, returned as an object. *)
Definition as_single (q : Query) (d : Data) : Reply :=
  if q_single q then
    match d with
    | DContacts [c] => ok (DContact c)
    | DProfiles [p] => ok (DProfile p)
    | _ => failed NotOneRow
    end
  else ok d.

(** The store as it answers the owner of the rows a request touches.  The
    owner rules of the hosted store are not applied here, so nothing is
    stated from this function about rows of another owner or about what a
    write sent without a session does to the store. *)
Definition exec (q : Query) (turn : Turn) (db : Db) : Db * Reply :=
  match turn with
  | Refuse => (db, failed Refused)
  | Serve new_id now =>
      if decide (q_table q = "contacts") then
        match q_verb q with
        | VSelect _ =>
            (db, as_single q
                   (DContacts (List.map contact_of_row (selected q (contacts db)))))
        | VInsert values =>
            match insert_row values new_id now (contacts db) with
            | inl e => (db, failed e)
            | inr t => (mkDb t (profiles db), ok DNull)
            end
        | VUpdate values =>
            match update_rows values (q_eq q) (contacts db) with
            | inl e => (db, failed e)
            | inr t => (mkDb t (profiles db), ok DNull)
            end
        | VDelete =>
            (mkDb (delete_rows (q_eq q) (contacts db)) (profiles db), ok DNull)
        end
      else if decide (q_table q = "profiles") then
        match q_verb q with
        | VSelect _ =>
            (db, as_single q
                   (DProfiles (List.map profile_of_row
                                 (List.filter (profile_matches (q_eq q))
                                    (profiles db)))))
        | _ => (db, failed Refused)
        end
      else (db, failed (NoSuchRelation (q_table q)))
  end.

End Server.

(** ** The Index page: state *)

Record User : Type := mkUser {
  user_id : jsstring;
  user_email : option jsstring
}.

Record Session : Type := mkSession {
  user : User
}.

Record State : Type := mkState {
  session : option Session;
  contacts : list Contact;
  searchTerm : jsstring;
  dialogOpen : bool;
  editingContact : option Contact;
  loading : bool;
  profile : option Profile
}.

(** The state of a freshly mounted page. *)
Definition initial : State :=
  mkState None [] [] false None true None.

(** State setters, notifications and the other synchronous calls of the
    handlers. *)
Inductive Action : Type :=
| setSession (s : option Session)
| setContacts (cs : list Contact)
| setSearchTerm (t : jsstring)
| setDialogOpen (b : bool)
| setEditingContact (c : option Contact)
| setLoading (b : bool)
| setProfile (p : option Profile)
| toast_error (message : string)
| toast_success (message : string)
| console_error (e : Store.PgError)
| navigate (path : string)
| preventDefault.

Definition apply (a : Action) (st : State) : State :=
  match a with
  | setSession s =>
      mkState s (contacts st) (searchTerm st) (dialogOpen st)
        (editingContact st) (loading st) (profile st)
  | setContacts cs =>
      mkState (session st) cs (searchTerm st) (dialogOpen st)
        (editingContact st) (loading st) (profile st)
  | setSearchTerm t =>
      mkState (session st) (contacts st) t (dialogOpen st)
        (editingContact st) (loading st) (profile st)
  | setDialogOpen b =>
      mkState (session st) (contacts st) (searchTerm st) b
        (editingContact st) (loading st) (profile st)
  | setEditingContact c =>
      mkState (session st) (contacts st) (searchTerm st) (dialogOpen st)
        c (loading st) (profile st)
  | setLoading b =>
      mkState (session st) (contacts st) (searchTerm st) (dialogOpen st)
        (editingContact st) b (profile st)
  | setProfile p =>
      mkState (session st) (contacts st) (searchTerm st) (dialogOpen st)
        (editingContact st) (loading st) p
  | toast_error _ | toast_success _ | console_error _ | navigate _
  | preventDefault => st
  end.

(** ** Handlers as programs

    [Do a k] performs a synchronous call and goes on; [Await q k] sends
    the request [q] and resumes with the reply once the current run of
    synchronous code is over; [Call p k] calls the [async] function [p]
    without awaiting it: [p] runs up to its first [await], then [k] runs,
    and the rest of [p] runs when its reply arrives. *)

Inductive prog : Type :=
| Done
| Do (a : Action) (k : prog)
| Await (q : Store.Query) (k : Reply -> prog)
| Call (p : prog) (k : prog).

Notation "a ';>' k" := (Do a k) (at level 62, right associativity).

Inductive Event : Type :=
| Did (a : Action)
| Sent (q : Store.Query).

Record World : Type := mkWorld {
  view : State;
  db : Store.Db;
  turns : list Turn;
  log : list Event
}.

(** The store answers a request with the next turn of the server; with no
    turn left the request is refused. *)
Definition request (q : Store.Query) (w : World) : World * Reply :=
  let turn := match turns w with [] => Refuse | t :: _ => t end in
  let '(db', r) := Server.exec q turn (db w) in
  (mkWorld (view w) db' (List.tl (turns w)) (log w ++ [Sent q]), r).

Definition act (a : Action) (w : World) : World :=
  mkWorld (apply a (view w)) (db w) (turns w) (log w ++ [Did a]).

(** [settle p w] runs the synchronous part of [p] and returns the world
    then, together with what remains to run when the replies arrive.  The
    store handles a request when it is sent, and the replies are handled
    in the order the requests were sent. *)
Fixpoint settle (p : prog) (w : World) : World * (World -> World) :=
  match p with
  | Done => (w, fun w' => w')
  | Do a k => settle k (act a w)
  | Await q k =>
      let '(w1, r) := request q w in
      (w1, fun w' => let '(w2, later) := settle (k r) w' in later w2)
  | Call p' k =>
      let '(w1, later1) := settle p' w in
      let '(w2, later2) := settle k w1 in
      (w2, fun w' => later2 (later1 w'))
  end.

(** The world once the handler and all it started have finished. *)
Definition run (p : prog) (w : World) : World :=
  let '(w1, later) := settle p w in later w1.

(** The requests of a trace, in the order they were sent. *)
Definition sent (l : list Event) : list Store.Query :=
  omap (fun e => match e with Sent q => Some q | Did _ => None end) l.

(** The notifications of a trace. *)
Definition toasts (l : list Event) : list Action :=
  omap (fun e => match e with
                 | Did (toast_error m) => Some (toast_error m)
                 | Did (toast_success m) => Some (toast_success m)
                 | _ => None
                 end) l.

(** Every action the program can perform, whatever the replies, is in [P]. *)
Inductive all_actions (P : Action -> Prop) : prog -> Prop :=
| all_Done : all_actions P Done
| all_Do a k : P a -> all_actions P k -> all_actions P (Do a k)
| all_Await q k : (forall r, all_actions P (k r)) -> all_actions P (Await q k)
| all_Call p k : all_actions P p -> all_actions P k -> all_actions P (Call p k).

(** ** The Index page: handlers (Index.tsx) *)

(** [data] read as a profile object, [if (data) setProfile(data)]. *)
Definition profile_data (d : Data) : option Profile :=
  match d with
  | DProfile p => Some p
  | _ => None
  end.

(** [data || []] read as the list of contacts. *)
Definition contacts_data (d : Data) : list Contact :=
  match d with
  | DContacts cs => cs
  | _ => []
  end.

Definition loadProfile (st : State) : prog :=
  match session st with
  | None => Done
  | Some s =>
      Await (Supabase.from "profiles"
               .> Supabase.select "full_name"
               .> Supabase.eq "user_id" (user_id (user s))
               .> Supabase.single)
        (fun r =>
           match profile_data (data r) with
           | Some p => setProfile (Some p) ;> Done
           | None => Done
           end)
  end.

Definition loadContacts (st : State) : prog :=
  match session st with
  | None => Done
  | Some s =>
      setLoading true ;>
      Await (Supabase.from "contacts"
               .> Supabase.select "*"
               .> Supabase.eq "user_id" (user_id (user s))
               .> Supabase.order "created_at" false)
        (fun r =>
           match error r with
           | Some e =>
               toast_error "Error al cargar contactos" ;>
               console_error e ;>
               setLoading false ;> Done
           | None =>
               setContacts (contacts_data (data r)) ;>
               setLoading false ;> Done
           end)
  end.

(** The effect on [session]: load the profile and the contacts. *)
Definition sessionEffect (st : State) : prog :=
  match session st with
  | None => Done
  | Some _ => Call (loadProfile st) (Call (loadContacts st) Done)
  end.

(** The object literal passed to [update]. *)
Definition update_values (contact : Contact) : gmap string jsval :=
  {[ "name" := JString (name contact);
     "email" := of_opt (email contact);
     "phone" := of_opt (phone contact);
     "notes" := of_opt (notes contact) ]}.

(** The object literal passed to [insert]. *)
Definition insert_values (s : Session) (contact : Contact) : gmap string jsval :=
  {[ "user_id" := JString (user_id (user s));
     "name" := JString (name contact);
     "email" := of_opt (email contact);
     "phone" := of_opt (phone contact);
     "notes" := of_opt (notes contact) ]}.

(** [contact.id] as a condition: present and not the empty string. *)
Definition truthy_id (contact : Contact) : option jsstring :=
  match id contact with
  | Some i => if truthy i then Some i else None
  | None => None
  end.

Definition handleSaveContact (st : State) (contact : Contact) : prog :=
  match session st with
  | None => Done
  | Some s =>
      match truthy_id contact with
      | Some i =>
          Await (Supabase.from "contacts"
                   .> Supabase.update (update_values contact)
                   .> Supabase.eq "id" i)
            (fun r =>
               match error r with
               | Some e =>
                   toast_error "Error al actualizar el contacto" ;>
                   console_error e ;>
                   setEditingContact None ;> Done
               | None =>
                   toast_success "Contacto actualizado" ;>
                   Call (loadContacts st) (setEditingContact None ;> Done)
               end)
      | None =>
          Await (Supabase.from "contacts"
                   .> Supabase.insert (insert_values s contact))
            (fun r =>
               match error r with
               | Some e =>
                   toast_error "Error al crear el contacto" ;>
                   console_error e ;>
                   setEditingContact None ;> Done
               | None =>
                   toast_success "Contacto creado" ;>
                   Call (loadContacts st) (setEditingContact None ;> Done)
               end)
      end
  end.

Definition handleDeleteContact (st : State) (id : jsstring) : prog :=
  Await (Supabase.from "contacts"
           .> Supabase.delete
           .> Supabase.eq "id" id)
    (fun r =>
       match error r with
       | Some e =>
           toast_error "Error al eliminar el contacto" ;>
           console_error e ;> Done
       | None =>
           toast_success "Contacto eliminado" ;>
           Call (loadContacts st) Done
       end).

Definition handleEditContact (contact : Contact) : prog :=
  setEditingContact (Some contact) ;> setDialogOpen true ;> Done.

(** The text of the header: [profile?.full_name || session?.user?.email];
    [None] renders nothing. *)
Definition header (st : State) : option jsstring :=
  or_opt (profile st ≫= full_name) (session st ≫= fun s => user_email (user s)).

(** ** The form dialog (ContactDialog.tsx) *)

Record Fields : Type := mkFields {
  f_name : jsstring;
  f_email : jsstring;
  f_phone : jsstring;
  f_address : jsstring;
  f_notes : jsstring
}.

(** The effect on [editingContact] and [open]: seed the five fields. *)
Definition seedFields (editingContact : option Contact) : Fields :=
  match editingContact with
  | Some c =>
      mkFields (name c) (or_else (email c) []) (or_else (phone c) [])
        (or_else (address c) []) (or_else (notes c) [])
  | None => mkFields [] [] [] [] []
  end.

(** The object literal [handleSubmit] passes to [onSave]. *)
Definition submitted (editingContact : option Contact) (f : Fields) : Contact :=
  mkContact (editingContact ≫= truthy_id)
    (f_name f)
    (or_undefined (f_email f))
    (or_undefined (f_phone f))
    (or_undefined (f_address f))
    None
    (or_undefined (f_notes f)).

Definition handleSubmit (onSave : Contact -> prog) (onOpenChange : bool -> prog)
    (editingContact : option Contact) (f : Fields) : prog :=
  preventDefault ;>
  Call (onSave (submitted editingContact f)) (onOpenChange false).

(** The dialog as the Index page mounts it: [onSave] is
    [handleSaveContact] and [onOpenChange] is [setDialogOpen]. *)
Definition submitDialog (st : State) (f : Fields) : prog :=
  handleSubmit (handleSaveContact st) (fun b => setDialogOpen b ;> Done)
    (editingContact st) f.


(** The requests the handlers build. *)
Definition contactsQuery (uid : jsstring) : Store.Query :=
  Store.mkQuery "contacts" (Store.VSelect "*") [("user_id", uid)]
    (Some ("created_at", false)) false.

Definition profileQuery (uid : jsstring) : Store.Query :=
  Store.mkQuery "profiles" (Store.VSelect "full_name") [("user_id", uid)]
    None true.

Definition deleteQuery (id : jsstring) : Store.Query :=
  Store.mkQuery "contacts" Store.VDelete [("id", id)] None false.

Definition updateQuery (values : gmap string jsval) (id : jsstring) : Store.Query :=
  Store.mkQuery "contacts" (Store.VUpdate values) [("id", id)] None false.

Definition insertQuery (values : gmap string jsval) : Store.Query :=
  Store.mkQuery "contacts" (Store.VInsert values) [] None false.

(** ** Scenarios *)

Definition maria : User := mkUser (u16 "u1") (Some (u16 "maria@x.com")).

(** The page of a signed-in user once the first load is over. *)
Definition signed_in (u : User) : State :=
  mkState (Some (mkSession u)) [] [] false None false None.

Definition empty_db : Store.Db := Store.mkDb Store.base_contacts [].

(** A store that holds a profile for [maria]. *)
Definition db_with_profile : Store.Db :=
  Store.mkDb Store.base_contacts
    [Store.mkProfileRow (u16 "u1") (Some (u16 "Maria"))].

(** The session arrives on a fresh page, the profile and the contacts
    load; later the session is renewed and the profile lookup is refused. *)
Definition after_first_load : World :=
  let w := mkWorld (apply (setSession (Some (mkSession maria))) initial)
             db_with_profile
             [Serve [] []; Serve [] []; Refuse] [] in
  run (sessionEffect (view w)) w.

Definition after_refused_lookup : World :=
  run (loadProfile (view after_first_load)) after_first_load.

(** A page without session. *)
Definition signed_out : World :=
  mkWorld (mkState None [] [] true None false None) empty_db
    [Serve [] []; Serve [] []] [].

(** The contacts table after the migration. *)
Definition migrated_contacts : Store.Table :=
  match Store.migration Store.base_contacts with
  | inr t => t
  | inl _ => Store.base_contacts
  end.

(** The dialog filled for a new contact with an address. *)
Definition carla : Fields :=
  mkFields (u16 "Carla") [] (u16 "611222333") (u16 "Calle Mayor 1") [].

(** A signed-in page on the migrated, still empty table. *)
Definition before_create : World :=
  mkWorld (signed_in maria) (Store.mkDb migrated_contacts [])
    [Serve (u16 "c1") (u16 "2024-01-01T10:00:00Z"); Serve [] []] [].

Definition create_carla : World :=
  run (submitDialog (view before_create) carla) before_create.

(** The card of the first contact is opened for editing, the address is
    typed into the seeded fields, and the dialog is submitted. *)
Definition before_edit : World :=
  let w := mkWorld (view create_carla) (db create_carla)
             [Serve [] []; Serve [] []] [] in
  match contacts (view w) with
  | c :: _ => run (handleEditContact c) w
  | [] => w
  end.

Definition with_address (f : Fields) (a : jsstring) : Fields :=
  mkFields (f_name f) (f_email f) (f_phone f) a (f_notes f).

Definition edited_fields : Fields :=
  with_address (seedFields (editingContact (view before_edit)))
    (u16 "Calle Mayor 1").

Definition edit_carla : World :=
  run (submitDialog (view before_edit) edited_fields) before_edit.

(** What identifies a row and records its origin. *)
Definition keys (r : Store.Row) : jsstring * jsstring * jsstring :=
  (Store.row_id r, Store.row_user_id r, Store.row_created_at r).

(** Actions that leave the dialog as it is. *)
Definition keeps_dialog (a : Action) : Prop :=
  forall st, dialogOpen (apply a st) = dialogOpen st.

(** Every request the program can send, whatever the replies, is in [Q]. *)
Inductive all_requests (Q : Store.Query -> Prop) : prog -> Prop :=
| req_Done : all_requests Q Done
| req_Do a k : all_requests Q k -> all_requests Q (Do a k)
| req_Await q k :
    Q q -> (forall r, all_requests Q (k r)) -> all_requests Q (Await q k)
| req_Call p k :
    all_requests Q p -> all_requests Q k -> all_requests Q (Call p k).

Definition is_select (q : Store.Query) : Prop :=
  exists cols, Store.q_verb q = Store.VSelect cols.

(** ** The rest of the page

    The session gate, the two buttons that open the dialog, the cancel
    button, what the page renders, and the contact card. *)

(** The callback of [onAuthStateChange] and of [getSession().then]
    (Index.tsx, first effect). *)
Definition authCallback (s : option Session) : prog :=
  setSession s ;>
  match s with
  | None => navigate "/auth" ;> Done
  | Some _ => Done
  end.

(** A session reaches the page: the callback runs, the page renders
    again and the effect on [session] runs on the new state. *)
Definition arrive (s : option Session) (w : World) : World :=
  let w1 := run (authCallback s) w in
  run (sessionEffect (view w1)) w1.

(** The button [Nuevo Contacto]. *)
Definition newContactClick : prog :=
  setEditingContact None ;> setDialogOpen true ;> Done.

(** The button [Agregar tu primer contacto] of the empty list. *)
Definition firstContactClick : prog :=
  setDialogOpen true ;> Done.

(** The button [Cancelar] of the dialog, as the page mounts it. *)
Definition cancelClick : prog :=
  setDialogOpen false ;> Done.

(** The body of the page under the search box. *)
Inductive Body : Type :=
| EmptyState (message : string) (addFirst : bool)
| Grid (cards : list Contact).

Inductive Screen : Type :=
| Cargando
| Page (headerText : option jsstring) (body : Body).

(** What [Index] returns. *)
Definition render (toLowerCase : jsstring -> jsstring) (st : State) : Screen :=
  if loading st then Cargando
  else
    Page (header st)
      (match filteredContacts toLowerCase (contacts st) (searchTerm st) with
       | [] =>
           EmptyState
             (if truthy (searchTerm st) then "No se encontraron contactos"
              else "No tienes contactos aún")
             (negb (truthy (searchTerm st)))
       | c :: cs => Grid (c :: cs)
       end).

(** The lines of a card (ContactCard.tsx): the title, then each optional
    field that is truthy, with its icon. *)
Inductive CardLine : Type :=
| Title (text : jsstring)
| WithMail (text : jsstring)
| WithPhone (text : jsstring)
| WithMapPin (text : jsstring)
| Plain (text : jsstring).

(** [field && <line>] *)
Definition shown (field : option jsstring) (line : jsstring -> CardLine)
  : list CardLine :=
  match field with
  | Some s => if truthy s then [line s] else []
  | None => []
  end.

Definition ContactCard (contact : Contact) : list CardLine :=
  Title (name contact)
  :: shown (email contact) WithMail
  ++ shown (phone contact) WithPhone
  ++ shown (address contact) WithMapPin
  ++ shown (city contact) WithMapPin
  ++ shown (notes contact) Plain.

Definition line_text (l : CardLine) : jsstring :=
  match l with
  | Title t | WithMail t | WithPhone t | WithMapPin t | Plain t => t
  end.

(** The write [handleSaveContact] sends for a record, and its messages. *)
Definition writeQuery (s : Session) (contact : Contact) : Store.Query :=
  match truthy_id contact with
  | Some i => updateQuery (update_values contact) i
  | None => insertQuery (insert_values s contact)
  end.

Definition writeError (contact : Contact) : string :=
  match truthy_id contact with
  | Some _ => "Error al actualizar el contacto"
  | None => "Error al crear el contacto"
  end.

Definition writeSuccess (contact : Contact) : string :=
  match truthy_id contact with
  | Some _ => "Contacto actualizado"
  | None => "Contacto creado"
  end.

(** An optional property that is absent or a non-empty string. *)
Definition tidy_field (o : option jsstring) : Prop :=
  o <> Some [].

(** A record as the dialog emits it: no empty string in an optional
    property and no city. *)
Definition tidy (c : Contact) : Prop :=
  tidy_field (id c) /\ tidy_field (email c) /\ tidy_field (phone c)
  /\ tidy_field (address c) /\ tidy_field (notes c) /\ city c = None.

(** Actions that leave [editingContact] as it is. *)
Definition keeps_editing (a : Action) : Prop :=
  forall st, editingContact (apply a st) = editingContact st.

(** Actions that leave the displayed list as it is. *)
Definition keeps_contacts (a : Action) : Prop :=
  forall st, contacts (apply a st) = contacts st.

(** A contacts table with two rows of two owners, before the migration,
    and the same table after it. *)
Definition two_contacts : Store.Table :=
  Store.mkTable (Store.nullable Store.base_contacts)
    [Store.mkRow (u16 "c1") (u16 "u1") (u16 "Ana")
       (u16 "2023-05-01T09:00:00Z") {[ "email" := u16 "a@x.com" ]};
     Store.mkRow (u16 "c2") (u16 "u2") (u16 "Beto")
       (u16 "2023-06-01T09:00:00Z") {[ "phone" := u16 "600333444" ]}].

Definition migrated_two_contacts : Store.Table :=
  match Store.migration two_contacts with
  | inr t => t
  | inl _ => two_contacts
  end.

(** ** Lemmas on strings *)

Lemma startsWith_spec s t :
  startsWith s t = true <-> exists post, s = t ++ post.
Proof.
  revert s; induction t as [|b t IH]; intros s; simpl.
  - split; [intros _; exists s; reflexivity | reflexivity].
  - destruct s as [|a s].
    + split; [discriminate | intros [post H]; discriminate].
    + rewrite andb_true_iff, N.eqb_eq, IH. split.
      * intros [-> [post ->]]. exists post. reflexivity.
      * intros [post H]. injection H as -> ->. split; [reflexivity | eauto].
Qed.

Lemma includes_spec s t : includes s t = true <-> substring_of t s.
Proof.
  unfold substring_of. induction s as [|a s IH]; simpl.
  - rewrite orb_false_r, startsWith_spec. split.
    + intros [post H]. exists [], post. exact H.
    + intros [pre [post H]]. destruct pre; simpl in H.
      * eauto.
      * discriminate.
  - rewrite orb_true_iff, startsWith_spec, IH. split.
    + intros [[post H] | [pre [post H]]].
      * exists [], post. exact H.
      * exists (a :: pre), post. simpl. congruence.
    + intros [pre [post H]]. destruct pre as [|a' pre]; simpl in H.
      * left. eauto.
      * right. injection H as _ H. eauto.
Qed.

Lemma includes_empty s : includes s [] = true.
Proof. destruct s; reflexivity. Qed.

(** ** The search filter *)

Lemma holds_on_present {A} (o : option A) (f : A -> bool) (P : A -> Prop) :
  (forall a, f a = true <-> P a) ->
  match o with Some a => f a | None => false end = true <->
  exists a, o = Some a /\ P a.
Proof.
  intros Hf. destruct o as [a|].
  - rewrite Hf. split.
    + intros H. exists a. split; [reflexivity | exact H].
    + intros [a' [[= <-] H]]. exact H.
  - split; [discriminate | intros [a [E _]]; discriminate].
Qed.

Section SearchFacts.

Variable lower : jsstring -> jsstring.

Lemma matchesSearch_spec term c :
  matchesSearch lower term c = true <->
  ci_substring_of lower term (name c)
  \/ (exists e, email c = Some e /\ ci_substring_of lower term e)
  \/ (exists p, phone c = Some p /\ substring_of term p).
Proof.
  unfold matchesSearch, ci_substring_of.
  rewrite !orb_true_iff, includes_spec.
  rewrite (holds_on_present (email c) _
             (fun e => substring_of (lower term) (lower e)))
    by (intros e; apply includes_spec).
  rewrite (holds_on_present (phone c) _ (fun p => substring_of term p))
    by (intros p; apply includes_spec).
  tauto.
Qed.

Lemma filteredContacts_sublist cs term :
  sublist (filteredContacts lower cs term) cs.
Proof.
  unfold filteredContacts. induction cs as [|c cs IH]; simpl.
  - constructor.
  - destruct (matchesSearch lower term c); now constructor.
Qed.

Lemma filteredContacts_In cs term c :
  In c (filteredContacts lower cs term) <->
  In c cs /\ matchesSearch lower term c = true.
Proof. unfold filteredContacts. apply filter_In. Qed.

End SearchFacts.

(** C4. The search filter keeps, in their order, exactly the contacts in
    whose name or email the term occurs once both are lower-cased, or in
    whose phone the term occurs as it is; on the two contacts of the
    example, [ana] keeps the first, [600] keeps both and [999] keeps none. *)
Theorem filteredContacts_keeps_exactly_the_matches :
  (forall (lower : jsstring -> jsstring) (term : jsstring) (cs : list Contact),
      sublist (filteredContacts lower cs term) cs
      /\ forall c,
          In c (filteredContacts lower cs term) <->
          In c cs
          /\ (ci_substring_of lower term (name c)
              \/ (exists e, email c = Some e /\ ci_substring_of lower term e)
              \/ (exists p, phone c = Some p /\ substring_of term p)))
  /\ filteredContacts toLowerCase_latin1 [ana; beto] (u16 "ana") = [ana]
  /\ filteredContacts toLowerCase_latin1 [ana; beto] (u16 "600") = [ana; beto]
  /\ filteredContacts toLowerCase_latin1 [ana; beto] (u16 "999") = [].
Proof.
  split; [| repeat split; reflexivity].
  intros lower term cs. split.
  - apply filteredContacts_sublist.
  - intros c. rewrite filteredContacts_In, matchesSearch_spec. reflexivity.
Qed.

(** C10. With the empty search term the filter returns the loaded list as
    it is, for any case conversion that maps the empty string to itself. *)
Theorem filteredContacts_empty_term
    (lower : jsstring -> jsstring) (cs : list Contact)
    (Hlower : lower [] = []) :
  filteredContacts lower cs [] = cs.
Proof.
  unfold filteredContacts. induction cs as [|c cs IH]; simpl.
  - reflexivity.
  - unfold matchesSearch at 1. rewrite Hlower, includes_empty. simpl.
    now rewrite IH.
Qed.

Lemma filteredContacts_empty_term_witness :
  toLowerCase_latin1 [] = []
  /\ filteredContacts toLowerCase_latin1 [ana; beto] [] = [ana; beto].
Proof.
  split; [reflexivity |].
  apply (filteredContacts_empty_term toLowerCase_latin1 [ana; beto]).
  reflexivity.
Defined.

(** ** The form dialog *)

Lemma or_undefined_empty s : s = [] -> or_undefined s = None.
Proof. now intros ->. Qed.

Lemma or_undefined_typed s : s <> [] -> or_undefined s = Some s.
Proof. destruct s; [congruence | reflexivity]. Qed.

Lemma truthy_id_Some c i :
  truthy_id c = Some i <-> id c = Some i /\ i <> [].
Proof.
  unfold truthy_id. destruct (id c) as [j|].
  - destruct j as [|a j]; simpl.
    + split; [discriminate | intros [[= <-] H]; congruence].
    + split.
      * intros [= <-]. split; [reflexivity | discriminate].
      * intros [[= <-] _]. reflexivity.
  - split; [discriminate | intros [H _]; discriminate].
Qed.

(** C6. Editing a record without address seeds the address field with
    the empty string, and submitting the seeded fields unchanged emits a
    record whose address is absent. *)
Theorem seed_then_submit_keeps_address_absent
    (c : Contact) (Habsent : address c = None) :
  f_address (seedFields (Some c)) = []
  /\ address (submitted (Some c) (seedFields (Some c))) = None.
Proof.
  unfold seedFields, submitted; simpl. rewrite Habsent. simpl.
  split; reflexivity.
Qed.

Lemma seed_then_submit_keeps_address_absent_witness :
  address ana = None
  /\ f_address (seedFields (Some ana)) = []
  /\ address (submitted (Some ana) (seedFields (Some ana))) = None.
Proof.
  split; [reflexivity |].
  apply (seed_then_submit_keeps_address_absent ana). reflexivity.
Defined.

(** ** Running programs *)

Lemma request_view q w : view (request q w).1 = view w.
Proof. unfold request. destruct (Server.exec _ _ _). reflexivity. Qed.

Lemma request_log q w : log (request q w).1 = log w ++ [Sent q].
Proof. unfold request. destruct (Server.exec _ _ _). reflexivity. Qed.

Lemma sent_app l1 l2 : sent (l1 ++ l2) = sent l1 ++ sent l2.
Proof. apply omap_app. Qed.

Lemma toasts_app l1 l2 : toasts (l1 ++ l2) = toasts l1 ++ toasts l2.
Proof. apply omap_app. Qed.

(** A property of the page state that every action of a program keeps is
    kept by its synchronous part and by what runs on the replies. *)
Lemma settle_invariant (I : State -> Prop) (P : Action -> Prop) :
  (forall a st, P a -> I st -> I (apply a st)) ->
  forall p, all_actions P p ->
  forall w, I (view w) ->
    I (view (settle p w).1)
    /\ forall w', I (view w') -> I (view ((settle p w).2 w')).
Proof.
  intros Hkeep p Hp. induction Hp as [|a k Ha Hk IH|q k Hk IH|p k Hp IHp Hk IHk];
    intros w Hw; simpl.
  - split; [exact Hw | intros w' Hw'; exact Hw'].
  - apply IH. simpl. apply Hkeep; assumption.
  - destruct (request q w) as [w1 r] eqn:E. simpl. split.
    + replace w1 with (request q w).1 by (rewrite E; reflexivity).
      rewrite request_view. exact Hw.
    + intros w' Hw'. destruct (IH r w' Hw') as [H1 H2].
      destruct (settle (k r) w') as [w2 later]. simpl in *. apply H2, H1.
  - destruct (IHp w Hw) as [H1 H1'].
    destruct (settle p w) as [w1 later1]. simpl in *.
    destruct (IHk w1 H1) as [H2 H2'].
    destruct (settle k w1) as [w2 later2]. simpl in *. split.
    + exact H2.
    + intros w' Hw'. apply H2', H1', Hw'.
Qed.

Lemma settle_later_invariant (I : State -> Prop) (P : Action -> Prop) :
  (forall a st, P a -> I st -> I (apply a st)) ->
  forall p, all_actions P p ->
  forall w w', I (view w') -> I (view ((settle p w).2 w')).
Proof.
  intros Hkeep p Hp. induction Hp as [|a k Ha Hk IH|q k Hk IH|p k Hp IHp Hk IHk];
    intros w w' Hw'; simpl.
  - exact Hw'.
  - apply IH, Hw'.
  - destruct (request q w) as [w1 r]. simpl.
    pose proof (settle_invariant I P Hkeep (k r) (Hk r) w' Hw') as [H1 H2].
    destruct (settle (k r) w') as [w2 later]. simpl in *. apply H2, H1.
  - specialize (IHp w). destruct (settle p w) as [w1 later1]. simpl in *.
    specialize (IHk w1). destruct (settle k w1) as [w2 later2]. simpl in *.
    apply IHk, IHp, Hw'.
Qed.

(** The trace only grows. *)
Lemma settle_log p :
  forall w,
    (exists l, log (settle p w).1 = log w ++ l)
    /\ forall w', exists l, log ((settle p w).2 w') = log w' ++ l.
Proof.
  induction p as [|a k IH|q k IH|p IHp k IHk]; intros w; simpl.
  - split; [exists [] | intros w'; exists []]; now rewrite app_nil_r.
  - destruct (IH (act a w)) as [[l Hl] H2]. split; [| exact H2].
    exists (Did a :: l). rewrite Hl. simpl. now rewrite <- app_assoc.
  - destruct (request q w) as [w1 r] eqn:E. simpl. split.
    + exists [Sent q]. replace w1 with (request q w).1 by now rewrite E.
      apply request_log.
    + intros w'. destruct (IH r w') as [[l1 H1] H2].
      destruct (settle (k r) w') as [w2 later]. simpl in *.
      destruct (H2 w2) as [l2 Hl2]. exists (l1 ++ l2).
      now rewrite Hl2, H1, app_assoc.
  - destruct (IHp w) as [[l1 H1] H1'].
    destruct (settle p w) as [w1 later1]. simpl in *.
    destruct (IHk w1) as [[l2 H2] H2'].
    destruct (settle k w1) as [w2 later2]. simpl in *. split.
    + exists (l1 ++ l2). now rewrite H2, H1, app_assoc.
    + intros w'. destruct (H1' w') as [l3 H3].
      destruct (H2' (later1 w')) as [l4 H4]. exists (l3 ++ l4).
      now rewrite H4, H3, app_assoc.
Qed.

(** A refused or failed request carries no data. *)
Lemma exec_error_no_data q turn d :
  error (Server.exec q turn d).2 <> None -> data (Server.exec q turn d).2 = DNull.
Proof.
  unfold Server.exec, Server.as_single, Server.ok, Server.failed.
  destruct turn; [reflexivity |].
  repeat case_decide; destruct (Store.q_verb q); simpl;
    repeat match goal with
           | |- context [match ?x with _ => _ end] => destruct x; simpl
           end; congruence.
Qed.

Lemma request_error_no_data q w :
  error (request q w).2 <> None -> data (request q w).2 = DNull.
Proof.
  unfold request. pose proof (exec_error_no_data q
    (match turns w with [] => Refuse | t :: _ => t end) (db w)) as H.
  destruct (Server.exec _ _ _). exact H.
Qed.

(** ** What a select returns *)

Lemma place_Permutation o r l : Permutation (Store.place o r l) (r :: l).
Proof.
  induction l as [|r' l IH]; simpl.
  - reflexivity.
  - destruct (Store.row_leb o r' r).
    + rewrite IH. apply perm_swap.
    + reflexivity.
Qed.

Lemma ordered_Permutation o l : Permutation (Store.ordered o l) l.
Proof.
  destruct o as [o|]; simpl; [| reflexivity].
  assert (H : forall acc,
             Permutation (fold_left (fun acc r => Store.place o r acc) l acc)
               (l ++ acc)).
  { induction l as [|r l IH]; intros acc; simpl.
    - reflexivity.
    - rewrite IH, place_Permutation. symmetry. apply Permutation_middle. }
  rewrite (H []). now rewrite app_nil_r.
Qed.

(** The rows the contacts request selects are the rows of the table
    owned by the user, each once. *)
Lemma contactsQuery_selects_owned uid t :
  Permutation (Store.selected (contactsQuery uid) t)
    (List.filter (fun r => bool_decide (Store.row_user_id r = uid))
       (Store.rows t)).
Proof.
  unfold Store.selected. rewrite ordered_Permutation.
  rewrite (List.filter_ext _
             (fun r => bool_decide (Store.row_user_id r = uid)));
    [reflexivity |].
  intros r. unfold Store.matches, Store.cell. simpl.
  rewrite andb_true_r.
  destruct (decide ("user_id" = "id")); [discriminate |].
  destruct (decide ("user_id" = "user_id")); [| congruence].
  apply bool_decide_ext. split; congruence.
Qed.

(** ** Loading the contacts and the profile *)

(** C7. With a signed-in user, loading the contacts sends one request:
    all columns of the contacts whose [user_id] is the user's, ordered by
    [created_at] descending.  If the reply carries an error, the error
    notification is shown and the displayed list stays as it was, with no
    further request; otherwise the displayed list becomes the rows the
    reply carries, and the empty list when the reply carries none. *)
Theorem loadContacts_replaces_or_keeps
    (w : World) (s : Session) (Hs : session (view w) = Some s) :
  let q := contactsQuery (user_id (user s)) in
  let r := (request q (act (setLoading true) w)).2 in
  let w' := run (loadContacts (view w)) w in
  sent (log w') = sent (log w) ++ [q]
  /\ match error r with
     | Some _ =>
         toasts (log w')
         = toasts (log w) ++ [toast_error "Error al cargar contactos"]
         /\ contacts (view w') = contacts (view w)
     | None =>
         toasts (log w') = toasts (log w)
         /\ (forall cs, data r = DContacts cs -> contacts (view w') = cs)
         /\ (data r = DNull -> contacts (view w') = [])
     end.
Proof.
  intros q r w'. subst w'. unfold run, loadContacts. rewrite Hs.
  change (Supabase.order _ _ _) with q. simpl.
  pose proof (request_view q (act (setLoading true) w)) as Hv.
  pose proof (request_log q (act (setLoading true) w)) as Hl.
  subst r. destruct (request q (act (setLoading true) w)) as [w1 r].
  simpl in *. destruct (error r); simpl; rewrite Hl, ?Hv;
    rewrite ?sent_app, ?toasts_app; simpl; rewrite ?app_nil_r; auto.
  split; [reflexivity |]. split; [reflexivity |].
  split; [intros cs Hcs | intros Hnull]; rewrite ?Hcs, ?Hnull; reflexivity.
Qed.

Lemma loadContacts_replaces_or_keeps_witness :
  let refused := mkWorld (signed_in maria) empty_db [Refuse] [] in
  let served := mkWorld (signed_in maria) (db create_carla) [Serve [] []] [] in
  toasts (log (run (loadContacts (view refused)) refused))
  = [toast_error "Error al cargar contactos"]
  /\ contacts (view served) = []
  /\ contacts (view (run (loadContacts (view served)) served))
     = [mkContact (Some (u16 "c1")) (u16 "Carla") None
          (Some (u16 "611222333")) None (Some (u16 "Burgos")) None].
Proof.
  intros refused served. split; [| split; [reflexivity |]].
  - exact (proj1 (proj2
      (loadContacts_replaces_or_keeps refused (mkSession maria) eq_refl))).
  - refine (proj1 (proj2 (proj2
      (loadContacts_replaces_or_keeps served (mkSession maria) eq_refl)))
      _ _).
    vm_compute. reflexivity.
Defined.

(** C8, as the code has it.  With a signed-in user the profile lookup is
    one request for the single [full_name] row of the user.  Whatever the
    reply, no notification is shown.  A reply without a profile row, which
    every failed lookup is, leaves the profile state and so the header
    text as they were: the header shows the user's email when no
    non-empty display name is held; a reply with a row becomes the
    profile state. *)
Theorem loadProfile_silent_fallback
    (w : World) (s : Session) (Hs : session (view w) = Some s) :
  let q := profileQuery (user_id (user s)) in
  let r := (request q w).2 in
  let w' := run (loadProfile (view w)) w in
  sent (log w') = sent (log w) ++ [q]
  /\ toasts (log w') = toasts (log w)
  /\ (error r <> None -> profile_data (data r) = None)
  /\ match profile_data (data r) with
     | Some p => profile (view w') = Some p
     | None =>
         profile (view w') = profile (view w)
         /\ header (view w') = header (view w)
         /\ ((forall n, profile (view w) ≫= full_name = Some n -> n = []) ->
             header (view w') = user_email (user s))
     end.
Proof.
  intros q r w'. subst w'. unfold run, loadProfile. rewrite Hs.
  change (Supabase.single _) with q. simpl.
  pose proof (request_view q w) as Hv.
  pose proof (request_log q w) as Hl.
  pose proof (request_error_no_data q w) as He.
  subst r. destruct (request q w) as [w1 r]. simpl in *.
  assert (Hhead : (forall n, profile (view w) ≫= full_name = Some n -> n = []) ->
                  header (view w) = user_email (user s)).
  { intros Hn. unfold header. rewrite Hs. simpl.
    destruct (profile (view w) ≫= full_name) as [n|] eqn:En; simpl.
    - rewrite (Hn n eq_refl). reflexivity.
    - reflexivity. }
  destruct (profile_data (data r)) as [p|] eqn:Ep; simpl;
    rewrite ?Hl, ?Hv; repeat split;
    rewrite ?sent_app, ?toasts_app; simpl; rewrite ?app_nil_r; auto.
  intros Herr. rewrite (He Herr) in Ep. discriminate.
Qed.

Lemma loadProfile_silent_fallback_witness :
  let w := mkWorld (signed_in maria) empty_db [Refuse] [] in
  header (view (run (loadProfile (view w)) w)) = Some (u16 "maria@x.com").
Proof.
  intros w.
  refine (proj2 (proj2 (proj2 (proj2 (proj2
    (loadProfile_silent_fallback w (mkSession maria) eq_refl))))) _).
  intros n Hn. simpl in Hn. discriminate.
Defined.

(** C8 as stated fails: a lookup that is refused while a display name is
    already held leaves the header on that name, not on the email. *)
Lemma loadProfile_refused_keeps_display_name :
  session (view after_first_load) = Some (mkSession maria)
  /\ error (request (profileQuery (u16 "u1")) after_first_load).2
     = Some Store.Refused
  /\ toasts (log after_refused_lookup) = []
  /\ header (view after_refused_lookup) = Some (u16 "Maria")
  /\ header (view after_refused_lookup) <> user_email maria.
Proof. vm_compute. repeat split; discriminate. Qed.

(** ** Deleting *)

(** C9. Deleting sends the delete of the rows with the given [id] before
    anything else and whatever the session; without session that request
    is still sent, whereas saving and loading do nothing at all. *)
Theorem handleDeleteContact_has_no_session_guard (w : World) (i : jsstring) :
  (exists rest,
      sent (log (run (handleDeleteContact (view w) i) w))
      = sent (log w) ++ deleteQuery i :: rest)
  /\ (session (view w) = None ->
      sent (log (run (handleDeleteContact (view w) i) w))
      = sent (log w) ++ [deleteQuery i]
      /\ (forall c, run (handleSaveContact (view w) c) w = w)
      /\ run (loadContacts (view w)) w = w).
Proof.
  split.
  - unfold run, handleDeleteContact.
    change (Supabase.eq _ _ _) with (deleteQuery i). simpl.
    pose proof (request_log (deleteQuery i) w) as Hl.
    destruct (request (deleteQuery i) w) as [w1 r]. simpl in *.
    match goal with
    | |- context [settle ?p w1] =>
        destruct (settle_log p w1) as [[l1 H1] H2];
        destruct (settle p w1) as [w2 later]
    end.
    simpl in *. destruct (H2 w2) as [l2 Hl2].
    exists (sent l1 ++ sent l2).
    rewrite Hl2, H1, Hl, !sent_app. simpl. now rewrite <- !app_assoc.
  - intros Hnone. unfold run, handleDeleteContact, handleSaveContact, loadContacts.
    rewrite Hnone.
    change (Supabase.eq _ _ _) with (deleteQuery i). simpl.
    pose proof (request_log (deleteQuery i) w) as Hl.
    destruct (request (deleteQuery i) w) as [w1 r]. simpl in *.
    repeat split.
    destruct (error r); simpl; rewrite Hl, !sent_app; simpl;
      now rewrite ?app_nil_r.
Qed.

Lemma handleDeleteContact_has_no_session_guard_witness :
  session (view signed_out) = None
  /\ sent (log (run (handleDeleteContact (view signed_out) (u16 "c1")) signed_out))
     = [deleteQuery (u16 "c1")]
  /\ run (loadContacts (view signed_out)) signed_out = signed_out.
Proof.
  split; [reflexivity |].
  pose proof (proj2 (handleDeleteContact_has_no_session_guard
                       signed_out (u16 "c1")) eq_refl) as [H1 [_ H3]].
  split; [exact H1 | exact H3].
Defined.

(** ** Submitting the dialog *)

Ltac actions :=
  repeat first
    [ apply all_Done
    | apply all_Do; [intros ?; reflexivity |]
    | apply all_Call
    | apply all_Await; intros ?
    | match goal with
      | |- all_actions _ (match ?x with _ => _ end) => destruct x
      end ].

Lemma loadContacts_keeps_dialog st : all_actions keeps_dialog (loadContacts st).
Proof. unfold loadContacts. actions. Qed.

Lemma handleSaveContact_keeps_dialog st c :
  all_actions keeps_dialog (handleSaveContact st c).
Proof.
  unfold handleSaveContact. actions; apply loadContacts_keeps_dialog.
Qed.

Lemma keeps_dialog_closed a st :
  keeps_dialog a -> dialogOpen st = false -> dialogOpen (apply a st) = false.
Proof. intros Ha Hst. now rewrite Ha. Qed.

Lemma submitDialog_closes (w : World) (f : Fields) :
  dialogOpen (view (settle (submitDialog (view w) f) w).1) = false
  /\ dialogOpen (view (run (submitDialog (view w) f) w)) = false.
Proof.
  unfold run, submitDialog, handleSubmit. simpl.
  pose proof (settle_later_invariant (fun st => dialogOpen st = false)
                keeps_dialog keeps_dialog_closed _
                (handleSaveContact_keeps_dialog (view w)
                   (submitted (editingContact (view w)) f))
                (act preventDefault w)) as Hlater.
  destruct (settle (handleSaveContact _ _) _) as [w1 later]. simpl in *.
  split; [reflexivity | apply Hlater; reflexivity].
Qed.

(** C5. The record the dialog emits carries an id exactly when a record
    with a non-empty id is being edited, and then that id; its name is
    the name field as typed; each of email, phone, address and notes is
    absent when its field is empty and is the field otherwise.  The
    record goes to [onSave], then [onOpenChange(false)] is called; on the
    Index page the dialog is closed once the synchronous part of the
    submission is over and is still closed when the save has finished,
    whatever the store replied. *)
Theorem handleSubmit_emits_record_and_closes (w : World) (f : Fields) :
  let e := editingContact (view w) in
  let r := submitted e f in
  (forall i, id r = Some i <-> exists c, e = Some c /\ id c = Some i /\ i <> [])
  /\ name r = f_name f
  /\ ((f_email f = [] -> email r = None)
      /\ (f_phone f = [] -> phone r = None)
      /\ (f_address f = [] -> address r = None)
      /\ (f_notes f = [] -> notes r = None))
  /\ ((f_email f <> [] -> email r = Some (f_email f))
      /\ (f_phone f <> [] -> phone r = Some (f_phone f))
      /\ (f_address f <> [] -> address r = Some (f_address f))
      /\ (f_notes f <> [] -> notes r = Some (f_notes f)))
  /\ (forall onSave onOpenChange,
        handleSubmit onSave onOpenChange e f
        = (preventDefault ;> Call (onSave r) (onOpenChange false)))
  /\ dialogOpen (view (settle (submitDialog (view w) f) w).1) = false
  /\ dialogOpen (view (run (submitDialog (view w) f) w)) = false.
Proof.
  intros e r. subst r. unfold submitted; simpl.
  split; [| split; [reflexivity | split; [| split; [| split]]]].
  - intros i. destruct e as [c|]; simpl.
    + rewrite truthy_id_Some. split.
      * intros H. exists c. split; [reflexivity | exact H].
      * intros [c' [[= <-] H]]. exact H.
    + split; [discriminate | intros [c [E _]]; discriminate].
  - repeat split; apply or_undefined_empty.
  - repeat split; apply or_undefined_typed.
  - reflexivity.
  - apply submitDialog_closes.
Qed.

Lemma handleSubmit_emits_record_and_closes_witness :
  f_email carla = []
  /\ f_address carla <> []
  /\ email (submitted None carla) = None
  /\ address (submitted None carla) = Some (u16 "Calle Mayor 1").
Proof.
  pose proof (handleSubmit_emits_record_and_closes
                (mkWorld (signed_in maria) empty_db [] []) carla)
    as [_ [_ [[He _] [[_ [_ [Ha _]]] _]]]].
  split; [reflexivity |]. split; [discriminate |].
  split; [apply He; reflexivity | apply Ha; discriminate].
Defined.

(** ** The store *)

Lemma json_lookup (o : gmap string jsval) k :
  json o !! k = match o !! k with
                | Some JUndefined => None
                | other => other
                end.
Proof.
  unfold json. rewrite map_lookup_filter.
  destruct (o !! k) as [[| |s]|]; simpl; try reflexivity;
    case_guard; simpl; congruence.
Qed.

Lemma of_opt_json (o : option jsstring) :
  match of_opt o with JUndefined => None | v => Some v end = JString <$> o.
Proof. destruct o; reflexivity. Qed.

Lemma find_nowhere {A} (f : A -> bool) l :
  (forall x, In x l -> f x = false) -> List.find f l = None.
Proof.
  induction l as [|a l IH]; intros H; simpl; [reflexivity |].
  rewrite (H a) by (left; reflexivity). apply IH. intros x Hx. apply H. now right.
Qed.

(** A body all of whose properties are columns is accepted. *)
Lemma unknown_column_None (body : gmap string jsval) t :
  (forall k, is_Some (body !! k) ->
             k ∈ Store.required_columns \/ is_Some (Store.nullable t !! k)) ->
  Store.unknown_column body t = None.
Proof.
  intros H. unfold Store.unknown_column. apply find_nowhere.
  intros k Hk. apply in_map_iff in Hk as [[k' v] [<- Hin]].
  apply list_elem_of_In, elem_of_map_to_list in Hin. simpl.
  destruct (H k' (ex_intro _ v Hin)) as [Hreq | Hcol].
  - rewrite bool_decide_eq_false_2; [reflexivity | tauto].
  - rewrite andb_false_iff. right. apply bool_decide_eq_false_2.
    destruct Hcol as [d Hd]. congruence.
Qed.

Lemma insert_values_lookup s c k :
  json (insert_values s c) !! k =
  if decide (k = "user_id") then Some (JString (user_id (user s)))
  else if decide (k = "name") then Some (JString (name c))
  else if decide (k = "email") then JString <$> email c
  else if decide (k = "phone") then JString <$> phone c
  else if decide (k = "notes") then JString <$> notes c
  else None.
Proof.
  rewrite json_lookup. unfold insert_values.
  repeat case_decide; subst; simplify_map_eq; try reflexivity;
    try apply of_opt_json.
Qed.

Lemma update_values_lookup c k :
  json (update_values c) !! k =
  if decide (k = "name") then Some (JString (name c))
  else if decide (k = "email") then JString <$> email c
  else if decide (k = "phone") then JString <$> phone c
  else if decide (k = "notes") then JString <$> notes c
  else None.
Proof.
  rewrite json_lookup. unfold update_values.
  repeat case_decide; subst; simplify_map_eq; try reflexivity;
    try apply of_opt_json.
Qed.

Lemma city_not_required : "city" ∉ Store.required_columns.
Proof.
  unfold Store.required_columns. rewrite !elem_of_cons, elem_of_nil.
  intros [H | [H | [H | [H | []]]]]; discriminate.
Qed.

Lemma set_opt_lookup c v r : Store.row_opt (Store.set_opt c (Some v) r) !! c = Some v.
Proof. simpl. apply lookup_insert_eq. Qed.

(** The migration, when it applies, declares the default of [city] and
    gives every existing row that value. *)
Lemma migration_inr t0 t :
  Store.migration t0 = inr t ->
  Store.nullable t = <["city" := Some Store.Burgos]> (Store.nullable t0)
  /\ Store.rows t
     = List.map (Store.set_opt "city" (Some Store.Burgos)) (Store.rows t0).
Proof.
  unfold Store.migration, Store.add_column, Store.update_where_null.
  case_decide as Hreq; [now apply city_not_required in Hreq |].
  destruct (Store.nullable t0 !! "city"); [discriminate |]. simpl.
  rewrite lookup_insert_eq. intros [= <-]. simpl. split; [reflexivity |].
  rewrite List.map_map. apply List.map_ext. intros r.
  now rewrite set_opt_lookup.
Qed.

Lemma insert_row_from_page t s c new_id now :
  (forall k, k ∈ ["email"; "phone"; "notes"] -> is_Some (Store.nullable t !! k)) ->
  Store.insert_row (insert_values s c) new_id now t
  = inr (Store.mkTable (Store.nullable t)
           (Store.rows t
            ++ [Store.mkRow new_id (user_id (user s)) (name c) now
                  (Store.inserted_opt (json (insert_values s c)) t)])).
Proof.
  intros Hcols. unfold Store.insert_row.
  rewrite unknown_column_None.
  - unfold Store.required. rewrite !insert_values_lookup.
    repeat (case_decide; try discriminate; try congruence).
  - intros k [v Hv]. rewrite insert_values_lookup in Hv.
    unfold Store.required_columns.
    repeat (case_decide; subst; [set_solver |]). discriminate.
Qed.

Lemma inserted_city_default t s c d :
  Store.nullable t !! "city" = Some d ->
  Store.inserted_opt (json (insert_values s c)) t !! "city" = d.
Proof.
  intros Hd. unfold Store.inserted_opt.
  rewrite map_lookup_imap, Hd. simpl. rewrite insert_values_lookup.
  repeat (case_decide; try discriminate; try congruence).
Qed.

(** A nullable column of the new row holds what the page submitted for
    it, and the column's default when the page submitted nothing. *)
Lemma inserted_from_page t s c k d :
  Store.nullable t !! k = Some d ->
  k <> "user_id" -> k <> "name" ->
  Store.inserted_opt (json (insert_values s c)) t !! k
  = match (if decide (k = "email") then email c
           else if decide (k = "phone") then phone c
           else if decide (k = "notes") then notes c
           else None) with
    | Some v => Some v
    | None => d
    end.
Proof.
  intros Hd Hu Hn. unfold Store.inserted_opt.
  rewrite map_lookup_imap, Hd. simpl. rewrite insert_values_lookup.
  repeat (case_decide; try congruence).
  - now destruct (email c).
  - now destruct (phone c).
  - now destruct (notes c).
Qed.

Lemma request_served q w new_id now ts :
  turns w = Serve new_id now :: ts ->
  request q w
  = (mkWorld (view w) (Server.exec q (Serve new_id now) (db w)).1 ts
       (log w ++ [Sent q]),
     (Server.exec q (Serve new_id now) (db w)).2).
Proof.
  intros Ht. unfold request. rewrite Ht. cbv beta iota zeta.
  now destruct (Server.exec q (Serve new_id now) (db w)).
Qed.

(** A select leaves the store as it is. *)
Lemma request_select_db q w :
  (exists cols, Store.q_verb q = Store.VSelect cols) ->
  db (request q w).1 = db w.
Proof.
  intros [cols Hq]. unfold request, Server.exec.
  destruct (match turns w with [] => Refuse | t :: _ => t end); simpl;
    [reflexivity |].
  rewrite Hq. repeat case_decide; reflexivity.
Qed.

(** A program that only reads leaves the store as it is. *)
Lemma settle_reads_db p :
  all_requests is_select p ->
  forall w,
    db (settle p w).1 = db w
    /\ forall w', db ((settle p w).2 w') = db w'.
Proof.
  induction 1 as [|a k Hk IH|q k Hq Hk IH|p k Hp IHp Hk IHk]; intros w; simpl.
  - split; [reflexivity | intros w'; reflexivity].
  - exact (IH (act a w)).
  - pose proof (request_select_db q w Hq) as Hdb.
    destruct (request q w) as [w1 r]. simpl in *. split; [exact Hdb |].
    intros w'. destruct (IH r w') as [H1 H2].
    destruct (settle (k r) w') as [w2 later]. simpl in *.
    now rewrite H2, H1.
  - destruct (IHp w) as [H1 H1'].
    destruct (settle p w) as [w1 later1]. simpl in *.
    destruct (IHk w1) as [H2 H2'].
    destruct (settle k w1) as [w2 later2]. simpl in *. split.
    + now rewrite H2, H1.
    + intros w'. now rewrite H2', H1'.
Qed.

Lemma run_reads_db p w : all_requests is_select p -> db (run p w) = db w.
Proof.
  intros Hp. unfold run. destruct (settle_reads_db p Hp w) as [H1 H2].
  destruct (settle p w) as [w1 later]. simpl in *. now rewrite H2, H1.
Qed.

Lemma loadContacts_reads st : all_requests is_select (loadContacts st).
Proof.
  unfold loadContacts. destruct (session st); [| constructor].
  constructor. constructor; [now exists "*" |].
  intros r. destruct (error r); repeat constructor.
Qed.

(** What a successful write by [handleSaveContact] leaves in the store:
    the continuation on a reply without error only reads. *)
Lemma after_write_reads st (m : string) :
  all_requests is_select
    (toast_success m ;> Call (loadContacts st) (setEditingContact None ;> Done)).
Proof.
  constructor. constructor; [apply loadContacts_reads | repeat constructor].
Qed.

(** Saving a record without id, served by the store: the row appended. *)
Lemma save_new_appends (w : World) (s : Session) (c : Contact)
    (new_id now : jsstring) (ts : list Turn) :
  session (view w) = Some s ->
  truthy_id c = None ->
  turns w = Serve new_id now :: ts ->
  (forall k, k ∈ ["email"; "phone"; "notes"] ->
             is_Some (Store.nullable (Store.contacts (db w)) !! k)) ->
  Store.contacts (db (run (handleSaveContact (view w) c) w))
  = Store.mkTable (Store.nullable (Store.contacts (db w)))
      (Store.rows (Store.contacts (db w))
       ++ [Store.mkRow new_id (user_id (user s)) (name c) now
             (Store.inserted_opt (json (insert_values s c))
                (Store.contacts (db w)))]).
Proof.
  intros Hs Hnew Hturn Hcols.
  unfold run, handleSaveContact. rewrite Hs, Hnew.
  change (Supabase.insert _ _) with (insertQuery (insert_values s c)).
  cbn [settle]. rewrite (request_served _ w new_id now ts Hturn).
  unfold Server.exec at 1 2. cbn [insertQuery Store.q_table Store.q_verb].
  destruct (decide ("contacts" = "contacts")) as [_|Hne]; [| congruence].
  rewrite (insert_row_from_page _ s c new_id now Hcols).
  cbn [fst snd Server.ok error].
  match goal with
  | |- context [settle ?p ?w1] =>
      pose proof (run_reads_db p w1 (after_write_reads (view w) _)) as Hdb;
      unfold run in Hdb; destruct (settle p w1) as [w2 later]
  end.
  rewrite Hdb. reflexivity.
Qed.

(** ** Saving *)

(** C3, as the code has it.  On a table the migration has been applied
    to, a contact created by the page is inserted without a [city]
    property, and the stored row's [city] is the default the migration
    declared for the column, as it is for every row that existed before. *)
Theorem insert_after_migration_takes_city_default
    (t0 t : Store.Table) (w : World) (s : Session) (c : Contact)
    (new_id now : jsstring) (ts : list Turn)
    (Hmig : Store.migration t0 = inr t)
    (Hcols : forall k, k ∈ ["email"; "phone"; "notes"] ->
                       is_Some (Store.nullable t0 !! k))
    (Hdb : Store.contacts (db w) = t)
    (Hs : session (view w) = Some s)
    (Hnew : truthy_id c = None)
    (Hturn : turns w = Serve new_id now :: ts) :
  let w' := run (handleSaveContact (view w) c) w in
  insert_values s c !! "city" = None
  /\ (forall r, In r (Store.rows t) -> Store.cell r "city" = Some Store.Burgos)
  /\ exists r,
      Store.rows (Store.contacts (db w')) = Store.rows t ++ [r]
      /\ Store.row_id r = new_id
      /\ Store.row_user_id r = user_id (user s)
      /\ Store.row_name r = name c
      /\ Store.cell r "city" = Some Store.Burgos.
Proof.
  intros w'. destruct (migration_inr t0 t Hmig) as [Hnull Hrows].
  assert (Hcity : forall r, Store.cell r "city" = Store.row_opt r !! "city").
  { intros r. unfold Store.cell. repeat (case_decide; try discriminate).
    reflexivity. }
  split; [| split].
  - unfold insert_values. simplify_map_eq. reflexivity.
  - intros r Hr. rewrite Hrows in Hr. apply in_map_iff in Hr as [r0 [<- _]].
    rewrite Hcity. apply set_opt_lookup.
  - subst w'. rewrite (save_new_appends w s c new_id now ts Hs Hnew Hturn).
    + rewrite Hdb. eexists. split; [reflexivity |]. repeat split.
      rewrite Hcity. simpl. apply inserted_city_default.
      rewrite Hnull. apply lookup_insert_eq.
    + intros k Hk. rewrite Hdb, Hnull. rewrite lookup_insert_ne.
      * apply Hcols, Hk.
      * intros <-. rewrite !elem_of_cons, elem_of_nil in Hk.
        destruct Hk as [H | [H | [H | []]]]; discriminate.
Qed.

Lemma insert_after_migration_takes_city_default_witness :
  exists r,
    Store.rows (Store.contacts
                  (db (run (handleSaveContact (view before_create)
                              (submitted None carla)) before_create)))
    = Store.rows migrated_contacts ++ [r]
    /\ Store.row_id r = u16 "c1"
    /\ Store.row_user_id r = u16 "u1"
    /\ Store.row_name r = u16 "Carla"
    /\ Store.cell r "city" = Some Store.Burgos.
Proof.
  refine (proj2 (proj2
    (insert_after_migration_takes_city_default
       Store.base_contacts migrated_contacts before_create (mkSession maria)
       (submitted None carla) (u16 "c1") (u16 "2024-01-01T10:00:00Z")
       [Serve [] []] _ _ _ _ _ _))).
  - vm_compute. reflexivity.
  - intros k Hk. rewrite !elem_of_cons, elem_of_nil in Hk.
    destruct Hk as [-> | [-> | [-> | []]]]; vm_compute; eauto.
  - reflexivity.
  - reflexivity.
  - reflexivity.
  - reflexivity.
Defined.

(** C3 as stated fails: the contact created on the migrated table is
    stored with [city] set to the column default, and comes back so. *)
Lemma insert_after_migration_city_is_not_absent :
  Store.migration Store.base_contacts = inr migrated_contacts
  /\ insert_values (mkSession maria) (submitted None carla) !! "city" = None
  /\ List.map (fun r => Store.cell r "city")
       (Store.rows (Store.contacts (db create_carla)))
     = [Some (u16 "Burgos")]
  /\ List.map city (contacts (view create_carla)) = [Some (u16 "Burgos")]
  /\ List.map city (contacts (view create_carla)) <> [None].
Proof. vm_compute. repeat split; discriminate. Qed.

(** The update the page sends changes no row's id, owner or creation
    time, whatever the store holds and however it answers. *)
Lemma update_row_from_page c t r :
  Store.update_row (json (update_values c)) t r
  = inr (Store.mkRow (Store.row_id r) (Store.row_user_id r) (name c)
           (Store.row_created_at r)
           (Store.updated_opt (json (update_values c)) t r)).
Proof.
  unfold Store.update_row, Store.required. rewrite !update_values_lookup.
  repeat (case_decide; try discriminate; try congruence).
Qed.

Lemma update_all_from_page c filters t rs :
  exists rs', Store.update_all (json (update_values c)) filters t rs = inr rs'
              /\ List.map keys rs' = List.map keys rs.
Proof.
  induction rs as [|r rs [rs' [IH1 IH2]]]; simpl.
  - exists []. split; reflexivity.
  - rewrite IH1, update_row_from_page.
    destruct (Store.matches filters r); eexists; (split; [reflexivity |]);
      simpl; now rewrite IH2.
Qed.

Lemma request_update_keys c i w :
  List.map keys (Store.rows (Store.contacts
     (db (request (updateQuery (update_values c) i) w).1)))
  = List.map keys (Store.rows (Store.contacts (db w))).
Proof.
  unfold request.
  destruct (match turns w with [] => Refuse | t :: _ => t end); simpl;
    [reflexivity |].
  unfold Store.update_rows.
  destruct (Store.unknown_column _ _); [reflexivity |].
  destruct (update_all_from_page c [("id", i)]
              (Store.contacts (db w)) (Store.rows (Store.contacts (db w))))
    as [rs' [H1 H2]].
  rewrite H1. simpl. exact H2.
Qed.

Lemma save_existing_keeps_keys (w : World) (c : Contact) (i : jsstring) :
  truthy_id c = Some i ->
  List.map keys (Store.rows (Store.contacts
     (db (run (handleSaveContact (view w) c) w))))
  = List.map keys (Store.rows (Store.contacts (db w))).
Proof.
  intros Hi. unfold run, handleSaveContact.
  destruct (session (view w)) as [s|]; [| reflexivity]. rewrite Hi.
  change (Supabase.eq _ _ _) with (updateQuery (update_values c) i).
  cbn [settle].
  pose proof (request_update_keys c i w) as Hk.
  destruct (request (updateQuery (update_values c) i) w) as [w1 r].
  cbn [fst snd] in *.
  match goal with
  | |- context [settle ?p w1] =>
      assert (Hp : all_requests is_select p)
        by (destruct (error r); repeat constructor; apply loadContacts_reads);
      pose proof (run_reads_db p w1 Hp) as Hdb; unfold run in Hdb;
      destruct (settle p w1) as [w2 later]
  end.
  rewrite Hdb. exact Hk.
Qed.

(** C2 at a contact typed with an address.  The record the dialog emits
    carries the address; the insert the page sends has the owner, the
    name, email, phone and notes, and no [address] property; after the
    reload the one contact shown has the submitted name and phone, no
    email, and no address. *)
Theorem save_new_contact_drops_address :
  let r := submitted (editingContact (view before_create)) carla in
  address r = Some (u16 "Calle Mayor 1")
  /\ sent (log create_carla)
     = [insertQuery (insert_values (mkSession maria) r);
        contactsQuery (u16 "u1")]
  /\ insert_values (mkSession maria) r !! "user_id" = Some (JString (u16 "u1"))
  /\ insert_values (mkSession maria) r !! "address" = None
  /\ toasts (log create_carla) = [toast_success "Contacto creado"]
  /\ contacts (view create_carla)
     = [mkContact (Some (u16 "c1")) (u16 "Carla") None
          (Some (u16 "611222333")) None (Some (u16 "Burgos")) None].
Proof. vm_compute. repeat split. Qed.

(** C1 at the same contact, edited to add the address.  The record the
    dialog emits carries the id and the address; the update the page sends
    is filtered on that id and its values have the properties name, email,
    phone and notes, with no [address] property; the row keeps its id,
    owner and creation time, and its address is still NULL after the
    reload. *)
Theorem save_existing_contact_drops_address :
  let r := submitted (editingContact (view before_edit)) edited_fields in
  id r = Some (u16 "c1")
  /\ address r = Some (u16 "Calle Mayor 1")
  /\ sent (log edit_carla)
     = [updateQuery (update_values r) (u16 "c1"); contactsQuery (u16 "u1")]
  /\ dom (update_values r) = {["name"; "email"; "phone"; "notes"]}
  /\ update_values r !! "address" = None
  /\ toasts (log edit_carla) = [toast_success "Contacto actualizado"]
  /\ List.map keys (Store.rows (Store.contacts (db edit_carla)))
     = List.map keys (Store.rows (Store.contacts (db before_edit)))
  /\ List.map (fun row => Store.cell row "address")
       (Store.rows (Store.contacts (db edit_carla)))
     = [None]
  /\ List.map address (contacts (view edit_carla)) = [None].
Proof.
  split; [vm_compute; reflexivity |].
  split; [vm_compute; reflexivity |].
  split; [vm_compute; reflexivity |].
  split; [unfold update_values; set_solver |].
  vm_compute. repeat split.
Qed.

(** ** More on the search filter *)

Lemma substring_of_refl s : substring_of s s.
Proof. exists [], []. simpl. now rewrite app_nil_r. Qed.

Lemma substring_of_trans a b c :
  substring_of a b -> substring_of b c -> substring_of a c.
Proof.
  intros [p1 [q1 ->]] [p2 [q2 ->]]. exists (p2 ++ p1), (q1 ++ q2).
  now rewrite <- !app_assoc.
Qed.

Lemma filter_sublist_of_weaker {A} (f g : A -> bool) l :
  (forall x, f x = true -> g x = true) ->
  sublist (List.filter f l) (List.filter g l).
Proof.
  intros Hfg. induction l as [|a l IH]; simpl; [constructor |].
  destruct (f a) eqn:Ef.
  - rewrite (Hfg a Ef). now constructor.
  - destruct (g a); [now constructor | exact IH].
Qed.

Lemma filter_with_empty_term lower cs :
  lower [] = [] -> filteredContacts lower cs [] = cs.
Proof.
  intros Hlower. unfold filteredContacts.
  induction cs as [|c cs IH]; simpl; [reflexivity |].
  unfold matchesSearch at 1. rewrite Hlower, includes_empty. simpl.
  now rewrite IH.
Qed.

(** Searching for the exact name, email or phone of a loaded contact
    finds that contact, whatever the case conversion. *)
Theorem search_by_own_field_finds
    (lower : jsstring -> jsstring) (cs : list Contact) (c : Contact)
    (Hin : In c cs) :
  In c (filteredContacts lower cs (name c))
  /\ (forall e, email c = Some e -> In c (filteredContacts lower cs e))
  /\ (forall p, phone c = Some p -> In c (filteredContacts lower cs p)).
Proof.
  repeat split; intros; apply filteredContacts_In; (split; [exact Hin |]);
    apply matchesSearch_spec.
  - left. apply substring_of_refl.
  - right; left. eexists. split; [eassumption | apply substring_of_refl].
  - right; right. eexists. split; [eassumption | apply substring_of_refl].
Qed.

Lemma search_by_own_field_finds_witness :
  In beto [ana; beto]
  /\ In beto (filteredContacts toLowerCase_latin1 [ana; beto] (u16 "Beto"))
  /\ In beto (filteredContacts toLowerCase_latin1 [ana; beto] (u16 "600333444")).
Proof.
  assert (Hin : In beto [ana; beto]) by (right; left; reflexivity).
  destruct (search_by_own_field_finds toLowerCase_latin1 [ana; beto] beto Hin)
    as [Hname [_ Hphone]].
  split; [exact Hin |]. split; [exact Hname |].
  exact (Hphone (u16 "600333444") eq_refl).
Defined.

(** When a term occurs in a longer term and still does once both are
    case-converted, the longer term only narrows the result: the contacts
    kept for it are among those kept for the shorter one.  (The built-in
    conversion keeps the occurrence except where it depends on the
    context of a letter, as for the Greek final sigma.) *)
Theorem longer_term_narrows
    (lower : jsstring -> jsstring) (cs : list Contact) (t t' : jsstring)
    (Hpart : substring_of t' t)
    (Hfolded : substring_of (lower t') (lower t)) :
  sublist (filteredContacts lower cs t) (filteredContacts lower cs t').
Proof.
  apply filter_sublist_of_weaker. intros c.
  rewrite !matchesSearch_spec. unfold ci_substring_of.
  intros [H | [[e [He H]] | [p [Hp H]]]].
  - left. eapply substring_of_trans; eassumption.
  - right; left. exists e. split; [exact He |].
    eapply substring_of_trans; eassumption.
  - right; right. exists p. split; [exact Hp |].
    eapply substring_of_trans; eassumption.
Qed.

Lemma longer_term_narrows_witness :
  filteredContacts toLowerCase_latin1 [ana; beto] (u16 "o") = [ana; beto]
  /\ filteredContacts toLowerCase_latin1 [ana; beto] (u16 "to") = [beto]
  /\ sublist (filteredContacts toLowerCase_latin1 [ana; beto] (u16 "to"))
       (filteredContacts toLowerCase_latin1 [ana; beto] (u16 "o")).
Proof.
  split; [reflexivity |]. split; [reflexivity |].
  apply (longer_term_narrows toLowerCase_latin1 [ana; beto]
           (u16 "to") (u16 "o")).
  - exists (u16 "t"), []. reflexivity.
  - exists (u16 "t"), []. reflexivity.
Defined.

(** ** More on the dialog *)

Lemma or_undefined_tidy s : tidy_field (or_undefined s).
Proof. destruct s; unfold tidy_field, or_undefined; simpl; congruence. Qed.

Lemma or_undefined_or_else o :
  tidy_field o -> or_undefined (or_else o []) = o.
Proof.
  unfold tidy_field, or_undefined, or_else.
  destruct o as [[|a s]|]; simpl; congruence.
Qed.

Lemma truthy_id_tidy c : tidy_field (id c) -> truthy_id c = id c.
Proof.
  unfold tidy_field, truthy_id. destruct (id c) as [[|a s]|]; simpl; congruence.
Qed.

(** Whatever is being edited and whatever is typed, the record the dialog
    emits has no empty string in id, email, phone, address or notes, and
    never a city. *)
Theorem submitted_is_tidy (e : option Contact) (f : Fields) :
  tidy (submitted e f).
Proof.
  unfold tidy, submitted; simpl.
  repeat split; try apply or_undefined_tidy.
  unfold tidy_field. destruct e as [c|]; simpl; [| discriminate].
  intros H. apply truthy_id_Some in H as [_ H]. now apply H.
Qed.

(** Opening the dialog on such a record and submitting the seeded fields
    unchanged emits the record itself. *)
Theorem seed_then_submit_is_identity (c : Contact) (Htidy : tidy c) :
  submitted (Some c) (seedFields (Some c)) = c.
Proof.
  destruct Htidy as [Hi [He [Hp [Ha [Hn Hc]]]]].
  destruct c as [i n e p a ci no]; simpl in *. subst ci.
  unfold submitted; simpl.
  rewrite !or_undefined_or_else by assumption.
  now rewrite (truthy_id_tidy (mkContact i n e p a None no)).
Qed.

Lemma seed_then_submit_is_identity_witness :
  submitted (Some ana) (seedFields (Some ana)) = ana.
Proof.
  apply (seed_then_submit_is_identity ana).
  unfold tidy, tidy_field; simpl. repeat split; discriminate.
Defined.

(** ** The card and the page *)

Lemma shown_not_empty o line :
  (forall s, line_text (line s) = s) ->
  Forall (fun l => line_text l <> []) (shown o line).
Proof.
  intros Hline. unfold shown. destruct o as [[|a s]|]; simpl; constructor.
  - rewrite Hline. discriminate.
  - constructor.
Qed.

(** Under its title a card has no line with an empty text: an optional
    field that is absent or the empty string is not rendered. *)
Theorem card_has_no_empty_line (c : Contact) :
  Forall (fun l => line_text l <> []) (List.tl (ContactCard c)).
Proof.
  unfold ContactCard; simpl.
  repeat (apply Forall_app; split); apply shown_not_empty; reflexivity.
Qed.

(** Once loaded and with an empty search box, the page shows every loaded
    contact in order, or, when there is none, the empty-list message
    together with the button to add the first contact. *)
Theorem render_without_search
    (lower : jsstring -> jsstring) (st : State)
    (Hlower : lower [] = [])
    (Hloaded : loading st = false)
    (Hterm : searchTerm st = []) :
  render lower st
  = Page (header st)
      (match contacts st with
       | [] => EmptyState "No tienes contactos aún" true
       | _ :: _ => Grid (contacts st)
       end).
Proof.
  unfold render. rewrite Hloaded, Hterm, filter_with_empty_term by exact Hlower.
  destruct (contacts st); reflexivity.
Qed.

Lemma render_without_search_witness :
  render toLowerCase_latin1 (signed_in maria)
  = Page (Some (u16 "maria@x.com"))
      (EmptyState "No tienes contactos aún" true).
Proof.
  exact (render_without_search toLowerCase_latin1 (signed_in maria)
           eq_refl eq_refl eq_refl).
Defined.

(** ** Stepping a handler *)

Lemma run_Do a k w : run (a ;> k) w = run k (act a w).
Proof. reflexivity. Qed.

Lemma run_Await q k w :
  run (Await q k) w = run (k (request q w).2) (request q w).1.
Proof. unfold run. simpl. now destruct (request q w). Qed.

Lemma run_Call_Done p w : run (Call p Done) w = run p w.
Proof. unfold run. simpl. now destruct (settle p w). Qed.

(** An un-awaited call followed by one setter: the setter's effect is
    there at the end if the rest of the call keeps it. *)
Lemma run_Call_then (I : State -> Prop) (P : Action -> Prop) p a w :
  (forall b st, P b -> I st -> I (apply b st)) ->
  all_actions P p ->
  (forall st, I (apply a st)) ->
  I (view (run (Call p (a ;> Done)) w)).
Proof.
  intros Hkeep Hp Ha. unfold run. simpl.
  pose proof (settle_later_invariant I P Hkeep p Hp w) as Hlater.
  destruct (settle p w) as [w1 later]. simpl in *. apply Hlater, Ha.
Qed.

Lemma loadContacts_keeps_editing st :
  all_actions keeps_editing (loadContacts st).
Proof. unfold loadContacts. actions. Qed.

Lemma keeps_editing_none a st :
  keeps_editing a -> editingContact st = None ->
  editingContact (apply a st) = None.
Proof. intros Ha Hst. now rewrite Ha. Qed.

(** ** More on saving *)

(** With a signed-in user, saving always ends with no contact being
    edited, whether the write and the reload succeed or fail. *)
Theorem handleSaveContact_clears_editingContact
    (w : World) (c : Contact) (s : Session)
    (Hs : session (view w) = Some s) :
  editingContact (view (run (handleSaveContact (view w) c) w)) = None.
Proof.
  unfold handleSaveContact. rewrite Hs.
  destruct (truthy_id c); rewrite run_Await;
    destruct (error _); rewrite ?run_Do; try reflexivity;
    apply (run_Call_then (fun st => editingContact st = None) keeps_editing);
    auto using keeps_editing_none, loadContacts_keeps_editing.
Qed.

Lemma handleSaveContact_clears_editingContact_witness :
  editingContact (view (run (handleSaveContact (view before_edit)
                               (submitted None carla)) before_edit)) = None.
Proof.
  exact (handleSaveContact_clears_editingContact before_edit
           (submitted None carla) (mkSession maria) eq_refl).
Defined.

(** With a signed-in user, a write the store answers with an error is
    followed by the error notification of the path taken and by nothing
    else: no reload is requested and the displayed list stays as it was. *)
Theorem handleSaveContact_failure_keeps_list
    (w : World) (c : Contact) (s : Session)
    (Hs : session (view w) = Some s)
    (Herr : error (request (writeQuery s c) w).2 <> None) :
  let w' := run (handleSaveContact (view w) c) w in
  sent (log w') = sent (log w) ++ [writeQuery s c]
  /\ toasts (log w') = toasts (log w) ++ [toast_error (writeError c)]
  /\ contacts (view w') = contacts (view w)
  /\ loading (view w') = loading (view w).
Proof.
  intros w'. subst w'. revert Herr.
  unfold handleSaveContact, writeQuery, writeError. rewrite Hs.
  destruct (truthy_id c) as [i|].
  - change (Supabase.eq _ _ _) with (updateQuery (update_values c) i).
    rewrite run_Await.
    pose proof (request_view (updateQuery (update_values c) i) w) as Hv.
    pose proof (request_log (updateQuery (update_values c) i) w) as Hl.
    destruct (request _ w) as [w1 r]. simpl in *.
    destruct (error r); [intros _ | congruence].
    unfold run; simpl. rewrite Hl, Hv, !sent_app, !toasts_app. simpl.
    now rewrite !app_nil_r.
  - change (Supabase.insert _ _) with (insertQuery (insert_values s c)).
    rewrite run_Await.
    pose proof (request_view (insertQuery (insert_values s c)) w) as Hv.
    pose proof (request_log (insertQuery (insert_values s c)) w) as Hl.
    destruct (request _ w) as [w1 r]. simpl in *.
    destruct (error r); [intros _ | congruence].
    unfold run; simpl. rewrite Hl, Hv, !sent_app, !toasts_app. simpl.
    now rewrite !app_nil_r.
Qed.

Lemma handleSaveContact_failure_keeps_list_witness :
  let w := mkWorld (signed_in maria) empty_db [Refuse] [] in
  toasts (log (run (handleSaveContact (view w) (submitted None carla)) w))
  = [toast_error "Error al crear el contacto"].
Proof.
  intros w.
  refine (proj1 (proj2
    (handleSaveContact_failure_keeps_list w (submitted None carla)
       (mkSession maria) eq_refl _))).
  vm_compute. discriminate.
Defined.

(** What an un-awaited reload followed by one more synchronous call
    leaves in the trace and in the loading flag. *)
Lemma run_reload_then st s a w :
  session st = Some s ->
  let w' := run (Call (loadContacts st) (a ;> Done)) w in
  sent (log w') = sent (log w) ++ [contactsQuery (user_id (user s))]
  /\ (exists rest, toasts (log w') = toasts (log w) ++ rest)
  /\ loading (view w') = false.
Proof.
  intros Hs. unfold run, loadContacts. rewrite Hs.
  change (Supabase.order _ _ _) with (contactsQuery (user_id (user s))).
  cbn [settle].
  pose proof (request_log (contactsQuery (user_id (user s)))
                (act (setLoading true) w)) as Hl.
  destruct (request _ (act (setLoading true) w)) as [w1 r].
  cbn [fst snd] in *. cbn [settle].
  destruct (error r) as [e|]; cbn [settle act log view fst snd];
    rewrite Hl; cbn [act log].
  all: split; [rewrite !sent_app; simpl; now rewrite !app_nil_r |].
  all: split; [rewrite !toasts_app, <- !app_assoc; eexists; reflexivity |].
  all: intros; reflexivity.
Qed.

(** With a signed-in user, a write the store accepts is followed by the
    success notification of the path taken and by exactly one reload of
    the user's contacts, after which the page is no longer loading. *)
Theorem handleSaveContact_success_reloads_once
    (w : World) (c : Contact) (s : Session)
    (Hs : session (view w) = Some s)
    (Hok : error (request (writeQuery s c) w).2 = None) :
  let w' := run (handleSaveContact (view w) c) w in
  sent (log w')
  = sent (log w) ++ [writeQuery s c; contactsQuery (user_id (user s))]
  /\ (exists rest,
        toasts (log w')
        = toasts (log w) ++ toast_success (writeSuccess c) :: rest)
  /\ loading (view w') = false.
Proof.
  intros w'. subst w'. revert Hok.
  unfold handleSaveContact, writeQuery, writeSuccess. rewrite Hs.
  destruct (truthy_id c) as [i|].
  - change (Supabase.eq _ _ _) with (updateQuery (update_values c) i).
    rewrite run_Await.
    pose proof (request_log (updateQuery (update_values c) i) w) as Hl.
    destruct (request _ w) as [w1 r]. cbn [fst snd] in *.
    intros ->. rewrite run_Do.
    destruct (run_reload_then (view w) s (setEditingContact None)
                (act (toast_success "Contacto actualizado") w1) Hs)
      as [H1 [[rest H2] H3]].
    rewrite H1, H2. cbn [act log]. rewrite Hl, !sent_app, !toasts_app. simpl.
    rewrite !app_nil_r, <- !app_assoc. simpl.
    split; [reflexivity |]. split; [eauto | exact H3].
  - change (Supabase.insert _ _) with (insertQuery (insert_values s c)).
    rewrite run_Await.
    pose proof (request_log (insertQuery (insert_values s c)) w) as Hl.
    destruct (request _ w) as [w1 r]. cbn [fst snd] in *.
    intros ->. rewrite run_Do.
    destruct (run_reload_then (view w) s (setEditingContact None)
                (act (toast_success "Contacto creado") w1) Hs)
      as [H1 [[rest H2] H3]].
    rewrite H1, H2. cbn [act log]. rewrite Hl, !sent_app, !toasts_app. simpl.
    rewrite !app_nil_r, <- !app_assoc. simpl.
    split; [reflexivity |]. split; [eauto | exact H3].
Qed.

Lemma handleSaveContact_success_reloads_once_witness :
  sent (log (run (handleSaveContact (view before_create)
                    (submitted None carla)) before_create))
  = [insertQuery (insert_values (mkSession maria) (submitted None carla));
     contactsQuery (u16 "u1")].
Proof.
  refine (proj1
    (handleSaveContact_success_reloads_once before_create
       (submitted None carla) (mkSession maria) eq_refl _)).
  vm_compute. reflexivity.
Defined.

(** ** More on loading *)

(** With a signed-in user, loading the contacts always ends with the
    loading flag off, whether the request succeeded or failed, and
    touches nothing of the page state but the list and that flag. *)
Theorem loadContacts_ends_loading
    (w : World) (s : Session) (Hs : session (view w) = Some s) :
  let w' := run (loadContacts (view w)) w in
  loading (view w') = false
  /\ session (view w') = session (view w)
  /\ searchTerm (view w') = searchTerm (view w)
  /\ dialogOpen (view w') = dialogOpen (view w)
  /\ editingContact (view w') = editingContact (view w)
  /\ profile (view w') = profile (view w).
Proof.
  intros w'. subst w'. unfold loadContacts. rewrite Hs.
  rewrite run_Do, run_Await.
  match goal with
  | |- context [request ?q ?w0] =>
      pose proof (request_view q w0) as Hv; destruct (request q w0) as [w1 r]
  end.
  cbn [fst snd] in *. destruct (error r); unfold run; simpl; rewrite Hv;
    simpl; repeat split; auto.
Qed.

Lemma loadContacts_ends_loading_witness :
  let w := mkWorld (apply (setLoading true) (signed_in maria))
             empty_db [Refuse] [] in
  loading (view w) = true
  /\ loading (view (run (loadContacts (view w)) w)) = false.
Proof.
  intros w. split; [reflexivity |].
  exact (proj1 (loadContacts_ends_loading w (mkSession maria) eq_refl)).
Defined.

(** ** Served requests *)

Lemma exec_contactsQuery uid a b d :
  Server.exec (contactsQuery uid) (Serve a b) d
  = (d, Server.ok (DContacts (List.map Server.contact_of_row
                                (Store.selected (contactsQuery uid)
                                   (Store.contacts d))))).
Proof.
  unfold Server.exec. cbn [contactsQuery Store.q_table Store.q_verb].
  destruct (decide ("contacts" = "contacts")); [reflexivity | congruence].
Qed.




Lemma reload_then_served st s w x a b ts :
  session st = Some s ->
  turns w = Serve a b :: ts ->
  keeps_contacts x ->
  let w' := run (Call (loadContacts st) (x ;> Done)) w in
  contacts (view w')
  = List.map Server.contact_of_row
      (Store.selected (contactsQuery (user_id (user s)))
         (Store.contacts (db w))).
Proof.
  intros Hs Ht Hx. unfold run, loadContacts. rewrite Hs.
  change (Supabase.order _ _ _) with (contactsQuery (user_id (user s))).
  cbn [settle].
  rewrite (request_served _ (act (setLoading true) w) a b ts Ht).
  rewrite exec_contactsQuery. cbn [fst snd Server.ok error data].
  cbn [settle act view db log apply contacts contacts_data fst snd].
  reflexivity.
Qed.

(** ** More on deleting *)



(** A delete the store answers with an error shows the error
    notification and nothing else: no reload is requested and the page
    state is exactly what it was. *)
Theorem handleDeleteContact_failure_changes_nothing
    (w : World) (i : jsstring)
    (Herr : error (request (deleteQuery i) w).2 <> None) :
  let w' := run (handleDeleteContact (view w) i) w in
  view w' = view w
  /\ sent (log w') = sent (log w) ++ [deleteQuery i]
  /\ toasts (log w')
     = toasts (log w) ++ [toast_error "Error al eliminar el contacto"].
Proof.
  intros w'. subst w'. revert Herr. unfold handleDeleteContact.
  change (Supabase.eq _ _ _) with (deleteQuery i). rewrite run_Await.
  pose proof (request_view (deleteQuery i) w) as Hv.
  pose proof (request_log (deleteQuery i) w) as Hl.
  destruct (request _ w) as [w1 r]. cbn [fst snd] in *.
  destruct (error r); [intros _ | congruence].
  unfold run; simpl. rewrite Hl, Hv, !sent_app, !toasts_app. simpl.
  now rewrite !app_nil_r.
Qed.

Lemma handleDeleteContact_failure_changes_nothing_witness :
  let w := mkWorld (signed_in maria) empty_db [Refuse] [] in
  toasts (log (run (handleDeleteContact (view w) (u16 "c1")) w))
  = [toast_error "Error al eliminar el contacto"].
Proof.
  intros w.
  refine (proj2 (proj2
    (handleDeleteContact_failure_changes_nothing w (u16 "c1") _))).
  vm_compute. discriminate.
Defined.

(** Without a session, a delete the store answers without error shows
    the success notification, but the reload returns at its guard: the
    delete is the only request sent and the page state, and so the
    displayed list, is exactly what it was. *)
Theorem handleDeleteContact_without_session_keeps_list
    (w : World) (i : jsstring)
    (Hnone : session (view w) = None)
    (Hok : error (request (deleteQuery i) w).2 = None) :
  let w' := run (handleDeleteContact (view w) i) w in
  view w' = view w
  /\ sent (log w') = sent (log w) ++ [deleteQuery i]
  /\ toasts (log w') = toasts (log w) ++ [toast_success "Contacto eliminado"].
Proof.
  intros w'. subst w'. revert Hok. unfold handleDeleteContact.
  change (Supabase.eq _ _ _) with (deleteQuery i). rewrite run_Await.
  pose proof (request_view (deleteQuery i) w) as Hv.
  pose proof (request_log (deleteQuery i) w) as Hl.
  destruct (request _ w) as [w1 r]. cbn [fst snd] in *.
  intros ->. rewrite run_Do, run_Call_Done.
  unfold loadContacts. rewrite Hnone. unfold run.
  cbn [settle act view log fst snd].
  rewrite Hl, Hv, !sent_app, !toasts_app. simpl. rewrite !app_nil_r.
  split; [| split; reflexivity].
  destruct (view w); reflexivity.
Qed.

Lemma handleDeleteContact_without_session_keeps_list_witness :
  let w := mkWorld (apply (setSession None) (view create_carla))
             (db create_carla) [Serve [] []] [] in
  let w' := run (handleDeleteContact (view w) (u16 "c1")) w in
  contacts (view w) <> []
  /\ contacts (view w') = contacts (view w)
  /\ toasts (log w') = [toast_success "Contacto eliminado"].
Proof.
  intros w w'.
  destruct (handleDeleteContact_without_session_keeps_list
              w (u16 "c1") eq_refl eq_refl) as [Hv [_ Ht]].
  split; [vm_compute; discriminate |]. split.
  - fold w' in Hv. now rewrite Hv.
  - exact Ht.
Defined.

(** ** Creating, then seeing the contact *)

Lemma exec_insertQuery values a b d t :
  Store.insert_row values a b (Store.contacts d) = inr t ->
  Server.exec (insertQuery values) (Serve a b) d
  = (Store.mkDb t (Store.profiles d), Server.ok DNull).
Proof.
  intros Hi. unfold Server.exec. cbn [insertQuery Store.q_table Store.q_verb].
  destruct (decide ("contacts" = "contacts")); [| congruence].
  now rewrite Hi.
Qed.

(** With a signed-in user, a table whose email, phone and notes columns
    have no default, and a store that serves the insert and the reload,
    saving a record without id puts on the page a contact with the id the
    server assigned and with the submitted name, email, phone and notes. *)
Theorem created_contact_is_displayed
    (w : World) (c : Contact) (s : Session)
    (new_id now a' b' : jsstring) (ts : list Turn)
    (Hs : session (view w) = Some s)
    (Hnew : truthy_id c = None)
    (Hturns : turns w = Serve new_id now :: Serve a' b' :: ts)
    (Hcols : forall k, k ∈ ["email"; "phone"; "notes"] ->
                       Store.nullable (Store.contacts (db w)) !! k = Some None) :
  exists c',
    In c' (contacts (view (run (handleSaveContact (view w) c) w)))
    /\ id c' = Some new_id
    /\ name c' = name c
    /\ email c' = email c
    /\ phone c' = phone c
    /\ notes c' = notes c.
Proof.
  assert (Hsome : forall k, k ∈ ["email"; "phone"; "notes"] ->
                    is_Some (Store.nullable (Store.contacts (db w)) !! k)).
  { intros k Hk. rewrite (Hcols k Hk). eauto. }
  unfold handleSaveContact. rewrite Hs, Hnew.
  change (Supabase.insert _ _) with (insertQuery (insert_values s c)).
  rewrite run_Await, (request_served _ w new_id now _ Hturns).
  rewrite (exec_insertQuery _ _ _ _ _
             (insert_row_from_page _ s c new_id now Hsome)).
  cbn [fst snd Server.ok error]. rewrite run_Do.
  match goal with
  | |- context [run (Call (loadContacts _) _) ?w1] =>
      rewrite (reload_then_served (view w) s w1 (setEditingContact None)
                 a' b' ts Hs eq_refl) by (intros ?; reflexivity)
  end.
  cbn [act db Store.contacts].
  set (r := Store.mkRow new_id (user_id (user s)) (name c) now
              (Store.inserted_opt (json (insert_values s c))
                 (Store.contacts (db w)))).
  exists (Server.contact_of_row r). split.
  - apply in_map.
    apply (Permutation_in _
             (Permutation_sym (contactsQuery_selects_owned _ _))).
    apply filter_In. split.
    + cbn [Store.rows]. apply in_or_app. right. left. reflexivity.
    + apply bool_decide_eq_true. reflexivity.
  - unfold Server.contact_of_row, r; simpl.
    repeat split.
    + rewrite (inserted_from_page _ s c "email" None) by
        (try discriminate; apply Hcols; set_solver).
      simpl. now destruct (email c).
    + rewrite (inserted_from_page _ s c "phone" None) by
        (try discriminate; apply Hcols; set_solver).
      simpl. now destruct (phone c).
    + rewrite (inserted_from_page _ s c "notes" None) by
        (try discriminate; apply Hcols; set_solver).
      simpl. now destruct (notes c).
Qed.

Lemma created_contact_is_displayed_witness :
  exists c',
    In c' (contacts (view (run (handleSaveContact (view before_create)
                                  (submitted None carla)) before_create)))
    /\ id c' = Some (u16 "c1")
    /\ name c' = u16 "Carla"
    /\ email c' = None
    /\ phone c' = Some (u16 "611222333")
    /\ notes c' = None.
Proof.
  refine (created_contact_is_displayed before_create (submitted None carla)
            (mkSession maria) (u16 "c1") (u16 "2024-01-01T10:00:00Z") [] [] []
            eq_refl eq_refl eq_refl _).
  intros k Hk. rewrite !elem_of_cons, elem_of_nil in Hk.
  destruct Hk as [-> | [-> | [-> | []]]]; vm_compute; reflexivity.
Defined.

(** ** The session gate *)

(** When a session reaches the page, the page holds it, asks for the
    profile and then for the contacts of its user, in that order and
    once each, and is no longer loading when both replies are in,
    whatever they are. *)
Theorem arrive_with_session_loads_profile_then_contacts
    (w : World) (s : Session) :
  let w' := arrive (Some s) w in
  session (view w') = Some s
  /\ sent (log w')
     = sent (log w) ++ [profileQuery (user_id (user s));
                        contactsQuery (user_id (user s))]
  /\ loading (view w') = false.
Proof.
  unfold arrive, authCallback. rewrite run_Do.
  change (run Done (act (setSession (Some s)) w))
    with (act (setSession (Some s)) w).
  set (w0 := act (setSession (Some s)) w).
  assert (Hs : session (view w0) = Some s) by reflexivity.
  unfold sessionEffect, loadProfile, loadContacts. rewrite Hs.
  change (Supabase.single _) with (profileQuery (user_id (user s))).
  change (Supabase.order _ _ _) with (contactsQuery (user_id (user s))).
  unfold run. cbn [settle].
  pose proof (request_view (profileQuery (user_id (user s))) w0) as Hv1.
  pose proof (request_log (profileQuery (user_id (user s))) w0) as Hl1.
  destruct (request (profileQuery (user_id (user s))) w0) as [w1 r1].
  cbn [fst snd] in *.
  pose proof (request_view (contactsQuery (user_id (user s)))
                (act (setLoading true) w1)) as Hv2.
  pose proof (request_log (contactsQuery (user_id (user s)))
                (act (setLoading true) w1)) as Hl2.
  destruct (request (contactsQuery (user_id (user s)))
              (act (setLoading true) w1)) as [w2 r2].
  cbn [fst snd] in *. cbn [settle].
  destruct (profile_data (data r1)), (error r2);
    cbn [settle act view log apply fst snd session loading];
    rewrite Hv2; cbn [act view apply session]; rewrite Hv1;
    rewrite Hl2; cbn [act log]; rewrite Hl1; subst w0;
    cbn [act log view apply session]; rewrite !sent_app; simpl;
    rewrite ?app_nil_r, <- ?app_assoc; repeat split; reflexivity.
Qed.

(** When a page that is still loading learns that there is no session,
    it navigates to [/auth], sends no request, and keeps rendering the
    loading screen. *)
Theorem arrive_without_session_navigates
    (lower : jsstring -> jsstring) (w : World)
    (Hloading : loading (view w) = true) :
  let w' := arrive None w in
  log w' = log w ++ [Did (setSession None); Did (navigate "/auth")]
  /\ db w' = db w
  /\ session (view w') = None
  /\ render lower (view w') = Cargando.
Proof.
  unfold arrive, authCallback, run, render; simpl.
  rewrite Hloading, <- app_assoc. repeat split; reflexivity.
Qed.

Lemma arrive_without_session_navigates_witness :
  let w := mkWorld initial empty_db [Serve [] []] [] in
  log (arrive None w) = [Did (setSession None); Did (navigate "/auth")]
  /\ render toLowerCase_latin1 (view (arrive None w)) = Cargando.
Proof.
  intros w.
  destruct (arrive_without_session_navigates toLowerCase_latin1 w eq_refl)
    as [Hl [_ [_ Hr]]].
  split; [exact Hl | exact Hr].
Defined.

(** ** The two buttons that open the dialog *)

Lemma submit_first_request st f w s :
  session st = Some s ->
  exists rest,
    sent (log (run (submitDialog st f) w))
    = sent (log w)
      ++ writeQuery s (submitted (editingContact st) f) :: rest.
Proof.
  intros Hs. unfold submitDialog, handleSubmit, handleSaveContact, writeQuery.
  rewrite Hs. unfold run.
  destruct (truthy_id (submitted (editingContact st) f)) as [i|].
  - change (Supabase.eq _ _ _)
      with (updateQuery (update_values (submitted (editingContact st) f)) i).
    cbn [settle].
    pose proof (request_log
      (updateQuery (update_values (submitted (editingContact st) f)) i)
      (act preventDefault w)) as Hl.
    destruct (request _ (act preventDefault w)) as [w1 r].
    cbn [fst snd] in *. cbn [settle act log fst snd].
    match goal with
    | |- context [settle ?p ?w2] =>
        destruct (settle_log p w2) as [[l1 H1] H2];
        destruct (settle p w2) as [w3 later]
    end.
    cbn [fst snd act log] in *. destruct (H2 w3) as [l2 Hl2].
    exists (sent l1 ++ sent l2).
    rewrite Hl2, H1, Hl, !sent_app. simpl. now rewrite app_nil_r, <- !app_assoc.
  - change (Supabase.insert _ _)
      with (insertQuery (insert_values s (submitted (editingContact st) f))).
    cbn [settle].
    pose proof (request_log
      (insertQuery (insert_values s (submitted (editingContact st) f)))
      (act preventDefault w)) as Hl.
    destruct (request _ (act preventDefault w)) as [w1 r].
    cbn [fst snd] in *. cbn [settle act log fst snd].
    match goal with
    | |- context [settle ?p ?w2] =>
        destruct (settle_log p w2) as [[l1 H1] H2];
        destruct (settle p w2) as [w3 later]
    end.
    cbn [fst snd act log] in *. destruct (H2 w3) as [l2 Hl2].
    exists (sent l1 ++ sent l2).
    rewrite Hl2, H1, Hl, !sent_app. simpl. now rewrite app_nil_r, <- !app_assoc.
Qed.

Lemma submitted_truthy_id c i f :
  truthy_id c = Some i -> truthy_id (submitted (Some c) f) = Some i.
Proof.
  intros Hi. unfold truthy_id at 1. cbn [submitted id mbind option_bind].
  rewrite Hi. apply truthy_id_Some in Hi as [_ Hi].
  destruct i; [congruence | reflexivity].
Qed.

(** [Nuevo Contacto] forgets the contact last edited, so the submitted
    form is inserted for the signed-in user.  [Agregar tu primer contacto]
    only opens the dialog: if a contact with an id was being edited and
    the dialog was left without saving, the submitted form is sent as an
    update of that id instead of an insert. *)
Theorem first_contact_button_keeps_the_edited_contact
    (w : World) (c : Contact) (i : jsstring) (f : Fields) (s : Session)
    (Hs : session (view w) = Some s)
    (Hedit : editingContact (view w) = Some c)
    (Hid : truthy_id c = Some i) :
  let opened := run firstContactClick (run cancelClick w) in
  let fresh := run newContactClick (run cancelClick w) in
  dialogOpen (view opened) = true
  /\ dialogOpen (view fresh) = true
  /\ (exists rest,
        sent (log (run (submitDialog (view opened) f) opened))
        = sent (log w)
          ++ updateQuery (update_values (submitted (Some c) f)) i :: rest)
  /\ (exists rest,
        sent (log (run (submitDialog (view fresh) f) fresh))
        = sent (log w)
          ++ insertQuery (insert_values s (submitted None f)) :: rest).
Proof.
  intros opened fresh.
  split; [reflexivity |]. split; [reflexivity |]. split.
  - destruct (submit_first_request (view opened) f opened s Hs) as [rest H].
    exists rest. rewrite H.
    change (editingContact (view opened)) with (editingContact (view w)).
    rewrite Hedit. unfold writeQuery.
    rewrite (submitted_truthy_id c i f Hid).
    unfold opened, run; simpl. rewrite !sent_app. simpl.
    now rewrite !app_nil_r.
  - destruct (submit_first_request (view fresh) f fresh s Hs) as [rest H].
    exists rest. rewrite H.
    change (editingContact (view fresh)) with (@None Contact).
    unfold fresh, run; simpl. rewrite !sent_app. simpl.
    now rewrite !app_nil_r.
Qed.

Lemma first_contact_button_keeps_the_edited_contact_witness :
  let opened := run firstContactClick (run cancelClick before_edit) in
  exists rest,
    sent (log (run (submitDialog (view opened) carla) opened))
    = sent (log before_edit)
      ++ updateQuery (update_values
                        (submitted (editingContact (view before_edit)) carla))
           (u16 "c1") :: rest.
Proof.
  intros opened.
  destruct (first_contact_button_keeps_the_edited_contact before_edit
              (mkContact (Some (u16 "c1")) (u16 "Carla") None
                 (Some (u16 "611222333")) None (Some (u16 "Burgos")) None)
              (u16 "c1") carla (mkSession maria) eq_refl eq_refl eq_refl)
    as [_ [_ [H _]]].
  exact H.
Defined.

(** ** More on the migration *)

Lemma set_opt_other c v r col :
  col <> c -> Store.cell (Store.set_opt c (Some v) r) col = Store.cell r col.
Proof.
  intros Hne. unfold Store.cell, Store.set_opt; simpl.
  repeat case_decide; try reflexivity. now apply lookup_insert_ne.
Qed.

(** The migration keeps the rows, in order, with their id, owner and
    creation time, and with the value of every column other than [city]. *)
Theorem migration_keeps_the_other_columns
    (t0 t : Store.Table) (Hmig : Store.migration t0 = inr t) :
  List.map keys (Store.rows t) = List.map keys (Store.rows t0)
  /\ forall col, col <> "city" ->
       List.map (fun r => Store.cell r col) (Store.rows t)
       = List.map (fun r => Store.cell r col) (Store.rows t0).
Proof.
  destruct (migration_inr t0 t Hmig) as [_ Hrows]. rewrite Hrows.
  split.
  - rewrite List.map_map. apply List.map_ext. intros r. reflexivity.
  - intros col Hcol. rewrite List.map_map. apply List.map_ext. intros r.
    now apply set_opt_other.
Qed.

Lemma migration_keeps_the_other_columns_witness :
  List.map keys (Store.rows migrated_two_contacts)
  = [(u16 "c1", u16 "u1", u16 "2023-05-01T09:00:00Z");
     (u16 "c2", u16 "u2", u16 "2023-06-01T09:00:00Z")]
  /\ List.map (fun r => Store.cell r "email") (Store.rows migrated_two_contacts)
     = [Some (u16 "a@x.com"); None]
  /\ List.map (fun r => Store.cell r "phone") (Store.rows migrated_two_contacts)
     = [None; Some (u16 "600333444")].
Proof.
  assert (Hmig : Store.migration two_contacts = inr migrated_two_contacts)
    by (vm_compute; reflexivity).
  destruct (migration_keeps_the_other_columns
              two_contacts migrated_two_contacts Hmig) as [Hkeys Hcols].
  split; [exact Hkeys |]. split.
  - apply (Hcols "email"). discriminate.
  - apply (Hcols "phone"). discriminate.
Defined.

(** The migration cannot be applied twice: on a table it has been applied
    to, its [ADD COLUMN] is refused because the column exists. *)
Theorem migration_is_refused_once_applied
    (t0 t : Store.Table) (Hmig : Store.migration t0 = inr t) :
  Store.migration t = inl (Store.DuplicateColumn "city").
Proof.
  destruct (migration_inr t0 t Hmig) as [Hnull _].
  unfold Store.migration, Store.add_column.
  case_decide as Hreq; [reflexivity |].
  now rewrite Hnull, lookup_insert_eq.
Qed.

Lemma migration_is_refused_once_applied_witness :
  Store.migration migrated_contacts = inl (Store.DuplicateColumn "city").
Proof.
  refine (migration_is_refused_once_applied
            Store.base_contacts migrated_contacts _).
  vm_compute. reflexivity.
Defined.

(** After the [ADD COLUMN ... DEFAULT] of the migration, its [UPDATE] of
    the rows whose city is NULL finds none and changes nothing. *)
Theorem migration_update_changes_nothing
    (t0 t1 : Store.Table)
    (Hadd : Store.add_column "city" (Some Store.Burgos) t0 = inr t1) :
  Store.update_where_null "city" Store.Burgos t1 = inr t1.
Proof.
  revert Hadd. unfold Store.add_column, Store.update_where_null.
  case_decide; [discriminate |].
  destruct (Store.nullable t0 !! "city"); [discriminate |].
  intros [= <-]. cbn [Store.nullable Store.rows].
  rewrite lookup_insert_eq. f_equal. f_equal.
  rewrite List.map_map. apply List.map_ext. intros r.
  now rewrite set_opt_lookup.
Qed.

Lemma migration_update_changes_nothing_witness :
  Store.add_column "city" (Some Store.Burgos) two_contacts
  = inr migrated_two_contacts
  /\ List.map (fun r => Store.cell r "city") (Store.rows migrated_two_contacts)
     = [Some (u16 "Burgos"); Some (u16 "Burgos")]
  /\ Store.update_where_null "city" Store.Burgos migrated_two_contacts
     = inr migrated_two_contacts.
Proof.
  assert (Hadd : Store.add_column "city" (Some Store.Burgos) two_contacts
                 = inr migrated_two_contacts) by (vm_compute; reflexivity).
  split; [exact Hadd |]. split; [vm_compute; reflexivity |].
  exact (migration_update_changes_nothing two_contacts
           migrated_two_contacts Hadd).
Defined.

(** ** Editing, field by field *)








